(** * eztx: the transaction state machine and the payment orchestrator

    A shallow embedding of [services/TransactionManager.ts] (the in-memory
    state store with its transition table, retry policy and garbage
    collection) and of the synchronous parts of [services/PaymentService.ts]
    (request validation, record creation, cancel and retry), followed by the
    properties the specification states about them.

    Conventions of the embedding.
    - JavaScript numbers that hold counts, milliseconds and clock readings
      are exact integers ([Z]); money amounts are exact rationals ([Q]).
      [NaN] and the infinities are not represented.
    - A field of type [string] that a caller left out is the empty string:
      the code tests such fields with [!], which treats both alike.
    - [Date] values are their millisecond clock reading.
    - A method that mutates [this] takes the object and returns the new one;
      a method that may [throw] returns a [result] whose [Throw] carries the
      message and the object as the exception leaves it.
    - [console.warn]/[console.error] output is not part of any object state
      and is left out. *)

From Stdlib Require Import ZArith QArith String Ascii List Lia.
From Stdlib Require Import DecimalString DecimalPos DecimalZ.
From stdpp Require Import gmap strings list fin_maps.

Open Scope string_scope.

(** ** types/payment.ts: [TransactionStatus] *)

Inductive TransactionStatus : Set :=
| INITIATED
| PENDING
| ON_RAMPING
| CONVERTING
| TRANSFERRING
| OFF_RAMPING
| COMPLETED
| FAILED.

#[global] Instance TransactionStatus_eq_dec : EqDecision TransactionStatus.
Proof. solve_decision. Defined.

(** [Array.prototype.includes] on an array of statuses. *)
Definition includes (l : list TransactionStatus) (s : TransactionStatus) : bool :=
  existsb (λ x, bool_decide (x = s)) l.

(** All eight members of the enum, in declaration order. *)
Definition all_statuses : list TransactionStatus :=
  [INITIATED; PENDING; ON_RAMPING; CONVERTING; TRANSFERRING; OFF_RAMPING;
   COMPLETED; FAILED].

(** JavaScript's [a || b] on an optional string: the empty string is falsy
    just as [undefined] is. *)
Definition or_default (o : option string) (d : string) : string :=
  match o with
  | Some EmptyString => d
  | Some s => s
  | None => d
  end.

(** Number-to-string conversion of an integer, as in template literals and
    string concatenation. *)
Definition show (z : Z) : string := NilZero.string_of_int (Z.to_int z).

(** ** The state graph of the specification (section 3)

    This relation follows the words of the specification; it is compared
    below with the table of the code. *)
Module SpecGraph.

(** The pipeline, in the order the specification lists it. *)
Definition pipeline : list TransactionStatus :=
  [INITIATED; PENDING; ON_RAMPING; CONVERTING; TRANSFERRING; OFF_RAMPING;
   COMPLETED].

(** [b] immediately follows [a] in the pipeline. *)
Definition successive (a b : TransactionStatus) : Prop :=
  ∃ i : nat, pipeline !! i = Some a ∧ pipeline !! S i = Some b.

Definition terminal (s : TransactionStatus) : Prop :=
  s = COMPLETED ∨ s = FAILED.

Inductive edge : TransactionStatus → TransactionStatus → Prop :=
| edge_step a b : successive a b → edge a b
| edge_fail s : ¬ terminal s → edge s FAILED
| edge_retry : edge FAILED PENDING.

End SpecGraph.

(** ** services/TransactionManager.ts *)
Module TransactionManager.

Open Scope Z_scope.

Record StateTransition : Type := {
  from : TransactionStatus;
  to : TransactionStatus;
  timestamp : Z;
  reason : option string;
  error : option string
}.

Record TransactionState : Type := {
  id : string;
  currentStatus : TransactionStatus;
  previousStatus : option TransactionStatus;
  transitions : list StateTransition;
  retryCount : Z;
  maxRetries : Z;
  lastError : option string;
  metadata : gmap string string
}.

Record RetryConfig : Type := {
  cfg_maxRetries : Z;
  retryableStatuses : list TransactionStatus;
  retryDelayMs : Z;
  backoffMultiplier : Z
}.

(** [Partial<RetryConfig>], the constructor's argument. *)
Record PartialRetryConfig : Type := {
  opt_maxRetries : option Z;
  opt_retryableStatuses : option (list TransactionStatus);
  opt_retryDelayMs : option Z;
  opt_backoffMultiplier : option Z
}.

Definition noOverrides : PartialRetryConfig :=
  {| opt_maxRetries := None; opt_retryableStatuses := None;
     opt_retryDelayMs := None; opt_backoffMultiplier := None |}.

(** One delivery of [callback(transactionId, oldStatus, newStatus)]; the
    observers are identified by their position of registration. *)
Record Notification : Type := {
  callback : nat;
  transactionId : string;
  oldStatus : TransactionStatus;
  newStatus : TransactionStatus
}.

(** The manager object: the [states] map, the registered callbacks, the
    configuration, and the two parts of the outside world it writes to:
    the entry of [localStorage] under [storageKey] (the array of states
    last saved, [None] when the key is absent) and the log of callback
    deliveries. *)
Record Manager : Type := {
  states : gmap string TransactionState;
  statusCallbacks : list nat;
  retryConfig : RetryConfig;
  storage : option (list TransactionState);
  notified : list Notification
}.

Inductive result (A : Type) : Type :=
| Ok (a : A) (m : Manager)
| Throw (msg : string) (m : Manager).
Arguments Ok {A} a m.
Arguments Throw {A} msg m.

Definition manager_of {A} (r : result A) : Manager :=
  match r with Ok _ m => m | Throw _ m => m end.

(** *** Record updates *)

Definition set_states (m : Manager) (s : gmap string TransactionState) : Manager :=
  {| states := s; statusCallbacks := statusCallbacks m;
     retryConfig := retryConfig m; storage := storage m;
     notified := notified m |}.

Definition set_storage (m : Manager) (s : option (list TransactionState)) : Manager :=
  {| states := states m; statusCallbacks := statusCallbacks m;
     retryConfig := retryConfig m; storage := s; notified := notified m |}.

Definition set_notified (m : Manager) (n : list Notification) : Manager :=
  {| states := states m; statusCallbacks := statusCallbacks m;
     retryConfig := retryConfig m; storage := storage m; notified := n |}.

Definition set_statusCallbacks (m : Manager) (c : list nat) : Manager :=
  {| states := states m; statusCallbacks := c;
     retryConfig := retryConfig m; storage := storage m;
     notified := notified m |}.

(** *** The constructor *)

Definition defaultRetryConfig : RetryConfig :=
  {| cfg_maxRetries := 3;
     retryableStatuses := [FAILED; PENDING];
     retryDelayMs := 5000;
     backoffMultiplier := 2 |}.

(** [{ ...defaults, ...retryConfig }] *)
Definition mergeConfig (p : PartialRetryConfig) : RetryConfig :=
  {| cfg_maxRetries := default (cfg_maxRetries defaultRetryConfig) (opt_maxRetries p);
     retryableStatuses :=
       default (retryableStatuses defaultRetryConfig) (opt_retryableStatuses p);
     retryDelayMs := default (retryDelayMs defaultRetryConfig) (opt_retryDelayMs p);
     backoffMultiplier :=
       default (backoffMultiplier defaultRetryConfig) (opt_backoffMultiplier p) |}.

(** [saveStatesToStorage]: the array of the states, in the order the map
    enumerates them, replaces the stored entry. (A JavaScript [Map]
    enumerates in insertion order, [gmap] in an order of its own; the array
    is only ever read back into a map keyed by [id].) A failing
    [localStorage.setItem] is caught by the method and is not modelled. *)
Definition saveStatesToStorage (m : Manager) : Manager :=
  set_storage m (Some (map snd (map_to_list (states m)))).

(** [loadStatesFromStorage]: every stored state is entered under its own
    [id]; an absent entry loads nothing. *)
Definition loadStatesFromStorage (m : Manager) : Manager :=
  match storage m with
  | None => m
  | Some serializedStates =>
      set_states m
        (foldl (λ acc state, <[id state := state]> acc) (states m) serializedStates)
  end.

(** [new TransactionManager(retryConfig)] in a world whose [localStorage]
    entry is [stored]. *)
Definition new (p : PartialRetryConfig) (stored : option (list TransactionState)) : Manager :=
  loadStatesFromStorage
    {| states := ∅; statusCallbacks := []; retryConfig := mergeConfig p;
       storage := stored; notified := [] |}.

(** *** The transition table *)

Definition validTransitions (from : TransactionStatus) : list TransactionStatus :=
  match from with
  | INITIATED => [PENDING; FAILED]
  | PENDING => [ON_RAMPING; FAILED]
  | ON_RAMPING => [CONVERTING; FAILED]
  | CONVERTING => [TRANSFERRING; FAILED]
  | TRANSFERRING => [OFF_RAMPING; FAILED]
  | OFF_RAMPING => [COMPLETED; FAILED]
  | COMPLETED => []
  | FAILED => [PENDING]
  end.

Definition isValidTransition (from to : TransactionStatus) : bool :=
  let allowedTransitions := validTransitions from in
  includes allowedTransitions to.

(** *** Notification *)

(** [notifyStatusChange]: every registered callback is called once, in
    registration order; an exception of a callback is caught. *)
Definition notifyStatusChange (m : Manager) (transactionId : string)
    (oldStatus newStatus : TransactionStatus) : Manager :=
  set_notified m
    (notified m ++
     map (λ cb, {| callback := cb; transactionId := transactionId;
                   oldStatus := oldStatus; newStatus := newStatus |})
         (statusCallbacks m)).

(** *** Mutations *)

Definition notFound {A} (transactionId : string) (m : Manager) : result A :=
  Throw ("Transaction state not found: " ++ transactionId) m.

Definition initializeTransaction (m : Manager) (now : Z) (transactionId : string)
    (initialStatus : TransactionStatus) : TransactionState * Manager :=
  let state :=
    {| id := transactionId;
       currentStatus := initialStatus;
       previousStatus := None;
       transitions :=
         [{| from := INITIATED; to := initialStatus; timestamp := now;
             reason := Some "Transaction initialized"; error := None |}];
       retryCount := 0;
       maxRetries := cfg_maxRetries (retryConfig m);
       lastError := None;
       metadata := ∅ |} in
  (state, saveStatesToStorage (set_states m (<[transactionId := state]> (states m)))).

Definition transitionTo (m : Manager) (now : Z) (transactionId : string)
    (newStatus : TransactionStatus) (reason : option string) : result bool :=
  match states m !! transactionId with
  | None => notFound transactionId m
  | Some state =>
      if negb (isValidTransition (currentStatus state) newStatus) then Ok false m
      else
        let oldStatus := currentStatus state in
        let transition :=
          {| from := oldStatus; to := newStatus; timestamp := now;
             reason := reason; error := None |} in
        let state' :=
          {| id := id state;
             currentStatus := newStatus;
             previousStatus := Some (currentStatus state);
             transitions := transitions state ++ [transition];
             retryCount := retryCount state;
             maxRetries := maxRetries state;
             lastError := lastError state;
             metadata := metadata state |} in
        let m1 := set_states m (<[transactionId := state']> (states m)) in
        let m2 := saveStatesToStorage m1 in
        Ok true (notifyStatusChange m2 transactionId oldStatus newStatus)
  end.

Definition markAsFailed (m : Manager) (now : Z) (transactionId : string)
    (error : string) (reason : option string) : result unit :=
  match states m !! transactionId with
  | None => notFound transactionId m
  | Some state =>
      let transition :=
        {| from := currentStatus state; to := FAILED; timestamp := now;
           reason := Some (or_default reason "Transaction failed");
           error := Some error |} in
      let state' :=
        {| id := id state;
           currentStatus := FAILED;
           previousStatus := Some (currentStatus state);
           transitions := transitions state ++ [transition];
           retryCount := retryCount state;
           maxRetries := maxRetries state;
           lastError := Some error;
           metadata := metadata state |} in
      let m1 := set_states m (<[transactionId := state']> (states m)) in
      let m2 := saveStatesToStorage m1 in
      Ok tt (notifyStatusChange m2 transactionId (currentStatus state) FAILED)
  end.

(** *** Read accessors *)

Definition getTransactionState (m : Manager) (transactionId : string) : option TransactionState :=
  states m !! transactionId.

Definition getCurrentStatus (m : Manager) (transactionId : string) : option TransactionStatus :=
  currentStatus <$> states m !! transactionId.

Definition getTransactionHistory (m : Manager) (transactionId : string) : list StateTransition :=
  match states m !! transactionId with
  | Some state => transitions state
  | None => []
  end.

Definition canRetry (m : Manager) (transactionId : string) : bool :=
  match states m !! transactionId with
  | None => false
  | Some state =>
      includes (retryableStatuses (retryConfig m)) (currentStatus state)
      && (retryCount state <? maxRetries state)
  end.

(** *** Retry

    [retryTransaction] is an [async] method with one suspension point, the
    wait for the back-off delay. It is embedded as the part that runs up to
    the wait and the part that runs when the timer fires; other calls may
    run on the manager in between. *)

(** [state.retryCount = n] *)
Definition set_retryCount (state : TransactionState) (n : Z) : TransactionState :=
  {| id := id state;
     currentStatus := currentStatus state;
     previousStatus := previousStatus state;
     transitions := transitions state;
     retryCount := n;
     maxRetries := maxRetries state;
     lastError := lastError state;
     metadata := metadata state |}.

Inductive retryStart : Type :=
| RetryThrows (msg : string)
    (** no state under the id: the promise is rejected *)
| RetryReturns (b : bool)
    (** resolved without waiting *)
| RetryAwaits (delay : Z) (attempt : Z) (m : Manager)
    (** suspended on [this.delay(delay)]; [attempt] is the incremented
        [retryCount] of the captured state object *).

(** [retryDelayMs * Math.pow(backoffMultiplier, retryCount - 1)], read
    after the increment. (The two agree on exponents from zero up; a retry
    count starts at zero and is only ever incremented, so the exponent is
    never below zero.) *)
Definition backoffDelay (cfg : RetryConfig) (retryCount : Z) : Z :=
  retryDelayMs cfg * backoffMultiplier cfg ^ (retryCount - 1).

Definition retryTransaction_begin (m : Manager) (transactionId : string) : retryStart :=
  match states m !! transactionId with
  | None => RetryThrows ("Transaction state not found: " ++ transactionId)
  | Some state =>
      if negb (canRetry m transactionId) then RetryReturns false
      else
        let state' := set_retryCount state (retryCount state + 1) in
        let delay := backoffDelay (retryConfig m) (retryCount state') in
        RetryAwaits delay (retryCount state')
          (set_states m (<[transactionId := state']> (states m)))
  end.

(** The continuation after the wait; [attempt] is what the captured
    state's [retryCount] reads when the timer fires. *)
Definition retryTransaction_resume (m : Manager) (now : Z) (transactionId : string)
    (retryReason : option string) (attempt : Z) : result bool :=
  transitionTo m now transactionId PENDING
    (Some (or_default retryReason ("Retry attempt " ++ show attempt))).

(** A call during whose wait nothing else runs on the manager: the delay
    awaited (if the wait is reached) and the outcome. [now] is the clock
    reading when the timer fires. *)
Definition retryTransaction (m : Manager) (now : Z) (transactionId : string)
    (retryReason : option string) : option Z * result bool :=
  match retryTransaction_begin m transactionId with
  | RetryThrows msg => (None, Throw msg m)
  | RetryReturns b => (None, Ok b m)
  | RetryAwaits delay attempt m' =>
      (Some delay, retryTransaction_resume m' now transactionId retryReason attempt)
  end.

(** *** Metadata and observers *)

Definition setMetadata (m : Manager) (transactionId key value : string) : result unit :=
  match states m !! transactionId with
  | None => notFound transactionId m
  | Some state =>
      let state' :=
        {| id := id state;
           currentStatus := currentStatus state;
           previousStatus := previousStatus state;
           transitions := transitions state;
           retryCount := retryCount state;
           maxRetries := maxRetries state;
           lastError := lastError state;
           metadata := <[key := value]> (metadata state) |} in
      Ok tt (saveStatesToStorage (set_states m (<[transactionId := state']> (states m))))
  end.

(** What [getMetadata] returns: [null], one value (possibly [undefined]),
    or a copy of the whole record. *)
Inductive metadataResult : Type :=
| MetadataNull
| MetadataValue (value : option string)
| MetadataAll (all : gmap string string).

(** [key ? state.metadata[key] : { ...state.metadata }]: a key left out and
    the empty key are both falsy. *)
Definition getMetadata (m : Manager) (transactionId : string) (key : option string)
    : metadataResult :=
  match states m !! transactionId with
  | None => MetadataNull
  | Some state =>
      match key with
      | Some (String c k) => MetadataValue (metadata state !! String c k)
      | _ => MetadataAll (metadata state)
      end
  end.

Definition onStatusChange (m : Manager) (callback : nat) : Manager :=
  set_statusCallbacks m (statusCallbacks m ++ [callback]).

(** [indexOf] then [splice(index, 1)]: the first occurrence goes. *)
Fixpoint remove_first (callback : nat) (l : list nat) : list nat :=
  match l with
  | [] => []
  | c :: l' => if decide (c = callback) then l' else c :: remove_first callback l'
  end.

Definition removeStatusChangeCallback (m : Manager) (callback : nat) : Manager :=
  set_statusCallbacks m (remove_first callback (statusCallbacks m)).

(** *** Queries over all states *)

Definition getTransactionsByStatus (m : Manager) (status : TransactionStatus)
    : list TransactionState :=
  filter (λ state, currentStatus state = status) (map snd (map_to_list (states m))).

(** *** Garbage collection *)

(** One turn of the loop of [cleanupOldTransactions] on the entry
    [(id, state)]. Reading [.timestamp] of the last element of an empty
    [transitions] array is a [TypeError], which ends the loop with what was
    deleted so far. (Which deletions precede such an error depends on the
    order of enumeration; a loop that ends normally visits every entry once
    and its result does not depend on the order.) *)
Definition cleanup_step (now maxAgeMs : Z) (acc : result Z)
    (entry : string * TransactionState) : result Z :=
  match acc with
  | Throw _ _ => acc
  | Ok cleanedCount m =>
      let '(id, state) := entry in
      if decide (currentStatus state = COMPLETED) then
        match last (transitions state) with
        | None => Throw "TypeError: Cannot read properties of undefined" m
        | Some lastTransition =>
            let age := now - timestamp lastTransition in
            if age >? maxAgeMs
            then Ok (cleanedCount + 1) (set_states m (delete id (states m)))
            else acc
        end
      else acc
  end.

Definition cleanupOldTransactions (m : Manager) (now maxAgeMs : Z) : result Z :=
  match foldl (cleanup_step now maxAgeMs) (Ok 0 m) (map_to_list (states m)) with
  | Throw msg m' => Throw msg m'
  | Ok cleanedCount m' =>
      Ok cleanedCount (if 0 <? cleanedCount then saveStatesToStorage m' else m')
  end.

(** The default of [maxAgeMs]: seven days. *)
Definition defaultMaxAgeMs : Z := 7 * 24 * 60 * 60 * 1000.

(** [clearAllStates] *)
Definition clearAllStates (m : Manager) : Manager :=
  set_storage (set_states m ∅) None.

(** *** What the specification calls an old completed transaction

    This predicate follows the words of the specification (section 4.2,
    [cleanupOldTransactions]); the loop above is compared with it. *)
Definition expired (now maxAgeMs : Z) (state : TransactionState) : Prop :=
  currentStatus state = COMPLETED
  ∧ match last (transitions state) with
    | Some lastTransition => maxAgeMs < now - timestamp lastTransition
    | None => False
    end.

#[global] Instance expired_dec now maxAgeMs state : Decision (expired now maxAgeMs state).
Proof. unfold expired. destruct (last (transitions state)); apply _. Defined.

(** *** The invariants of section 3, as predicates on a state *)

(** Every transition starts where the one before it ended. *)
Fixpoint continuous (l : list StateTransition) : Prop :=
  match l with
  | [] => True
  | t :: l' =>
      match l' with
      | [] => True
      | t' :: _ => from t' = to t
      end ∧ continuous l'
  end.

Definition ends_at (l : list StateTransition) (s : TransactionStatus) : Prop :=
  ∃ t, last l = Some t ∧ to t = s.

Record state_wf (state : TransactionState) : Prop := {
  wf_nonempty : transitions state ≠ [];
  wf_last : ends_at (transitions state) (currentStatus state);
  wf_continuous : continuous (transitions state)
}.

(** The invariant of the whole store. *)
Definition all_wf (m : Manager) : Prop := map_Forall (λ _ st, state_wf st) (states m).

(** *** Histories of calls *)

Inductive call : Type :=
| CallInitialize (transactionId : string) (initialStatus : TransactionStatus)
| CallTransitionTo (transactionId : string) (newStatus : TransactionStatus)
    (reason : option string)
| CallMarkAsFailed (transactionId : string) (error : string) (reason : option string)
| CallRetry (transactionId : string) (retryReason : option string)
    (** a whole [retryTransaction], nothing running during its wait *)
| CallRetryBegin (transactionId : string)
    (** a [retryTransaction] up to its wait *)
| CallRetryResume (transactionId : string) (retryReason : option string) (attempt : Z)
    (** a suspended [retryTransaction] whose timer fires *)
| CallSetMetadata (transactionId key value : string)
| CallCleanup (maxAgeMs : Z).

(** The manager after a call made at clock reading [now], whether the call
    returned or threw. *)
Definition after (m : Manager) (now : Z) (c : call) : Manager :=
  match c with
  | CallInitialize i s => snd (initializeTransaction m now i s)
  | CallTransitionTo i s r => manager_of (transitionTo m now i s r)
  | CallMarkAsFailed i e r => manager_of (markAsFailed m now i e r)
  | CallRetry i r => manager_of (snd (retryTransaction m now i r))
  | CallRetryBegin i =>
      match retryTransaction_begin m i with
      | RetryAwaits _ _ m' => m'
      | _ => m
      end
  | CallRetryResume i r k => manager_of (retryTransaction_resume m now i r k)
  | CallSetMetadata i k v => manager_of (setMetadata m i k v)
  | CallCleanup a => manager_of (cleanupOldTransactions m now a)
  end.

(** The managers a program can have in hand: a manager constructed over an
    empty [localStorage], then any calls at any clock readings. *)
Inductive reachable (p : PartialRetryConfig) : Manager → Prop :=
| reachable_new : reachable p (new p None)
| reachable_after m now c : reachable p m → reachable p (after m now c).

(** Running a list of timed calls from the left. *)
Definition run (m : Manager) (calls : list (Z * call)) : Manager :=
  foldl (λ acc tc, after acc (fst tc) (snd tc)) m calls.

(** *** Sample histories *)

(** A payment that fails while pending and is retried once. *)
Definition retried_history : list (Z * call) :=
  [(1000, CallInitialize "tx-1" INITIATED);
   (1010, CallTransitionTo "tx-1" PENDING None);
   (1020, CallMarkAsFailed "tx-1" "Network error" None);
   (7000, CallRetry "tx-1" None)].

Definition retried_manager : Manager := run (new noOverrides None) retried_history.

(** A payment that fails right after its creation. *)
Definition failed_manager : Manager :=
  run (new noOverrides None)
    [(1000, CallInitialize "tx-1" INITIATED);
     (1020, CallMarkAsFailed "tx-1" "Network error" None)].

(** The full legal walk of one payment, next to a payment that failed at
    the same moment the first one completed. *)
Definition completed_history : list (Z * call) :=
  [(1000, CallInitialize "tx-1" INITIATED);
   (1000, CallInitialize "tx-2" INITIATED);
   (1010, CallTransitionTo "tx-1" PENDING None);
   (1020, CallTransitionTo "tx-1" ON_RAMPING None);
   (1030, CallTransitionTo "tx-1" CONVERTING None);
   (1040, CallTransitionTo "tx-1" TRANSFERRING None);
   (1050, CallTransitionTo "tx-1" OFF_RAMPING None);
   (1060, CallTransitionTo "tx-1" COMPLETED None);
   (1060, CallMarkAsFailed "tx-2" "On-ramp timeout" None)].

Definition completed_manager : Manager := run (new noOverrides None) completed_history.


(** *** [transitionTo] along a list of statuses

    One call per status, at the clock readings [now], [now + 1], ...; the
    value is what the calls returned (up to the first that threw) and the
    manager they leave. *)
Fixpoint transitionAlong (m : Manager) (now : Z) (transactionId : string)
    (path : list TransactionStatus) : list bool * Manager :=
  match path with
  | [] => ([], m)
  | newStatus :: path' =>
      match transitionTo m now transactionId newStatus None with
      | Ok b m' =>
          let '(bs, m'') := transitionAlong m' (now + 1) transactionId path' in
          (b :: bs, m'')
      | Throw _ m' => ([], m')
      end
  end.

(** The table allows every step of [path], starting from [s]. *)
Fixpoint validPath (s : TransactionStatus) (path : list TransactionStatus) : bool :=
  match path with
  | [] => true
  | s' :: path' => isValidTransition s s' && validPath s' path'
  end.

(** The six transitions of the pipeline after INITIATED. *)
Definition pipelineSteps : list TransactionStatus :=
  [PENDING; ON_RAMPING; CONVERTING; TRANSFERRING; OFF_RAMPING; COMPLETED].

(** *** [getProblematicTransactions] *)

Definition stuckThreshold : Z := 30 * 60 * 1000.

Definition processingStatuses : list TransactionStatus :=
  [PENDING; ON_RAMPING; CONVERTING; TRANSFERRING; OFF_RAMPING].

(** The callback of the [filter]: [None] is the [TypeError] of reading
    [.timestamp] off the last element of an empty [transitions] array,
    which the callback does for every state that is not FAILED. *)
Definition problematicFilter (now : Z) (state : TransactionState) : option bool :=
  if decide (currentStatus state = FAILED) then Some true
  else
    match last (transitions state) with
    | None => None
    | Some lastTransition =>
        let timeSinceLastTransition := now - timestamp lastTransition in
        Some (includes processingStatuses (currentStatus state)
              && (timeSinceLastTransition >? stuckThreshold))
    end.

(** [Array.prototype.filter] with a callback that may throw: the exception
    of the first element that throws ends the call. *)
Fixpoint filterThrowing {A} (f : A → option bool) (l : list A) : option (list A) :=
  match l with
  | [] => Some []
  | x :: l' =>
      match f x with
      | None => None
      | Some b =>
          match filterThrowing f l' with
          | None => None
          | Some r => Some (if b then x :: r else r)
          end
      end
  end.

Definition getProblematicTransactions (m : Manager) (now : Z)
    : result (list TransactionState) :=
  match filterThrowing (problematicFilter now) (map snd (map_to_list (states m))) with
  | Some l => Ok l m
  | None => Throw "TypeError: Cannot read properties of undefined" m
  end.

(** *** [getStatistics] *)

(** The string value of an enum member. *)
Definition statusValue (s : TransactionStatus) : string :=
  match s with
  | INITIATED => "initiated"
  | PENDING => "pending"
  | ON_RAMPING => "on_ramping"
  | CONVERTING => "converting"
  | TRANSFERRING => "transferring"
  | OFF_RAMPING => "off_ramping"
  | COMPLETED => "completed"
  | FAILED => "failed"
  end.

(** [stats[key]++]; every key incremented was set to 0 before. *)
Definition increment (stats : gmap string Z) (key : string) : gmap string Z :=
  <[key := default 0 (stats !! key) + 1]> stats.

(** The counts per status: all set to 0, then one increment per state. *)
Definition countByStatus (l : list TransactionState) : gmap string Z :=
  foldl (λ stats state, increment stats (statusValue (currentStatus state)))
        (foldl (λ stats status, <[statusValue status := 0]> stats) ∅ all_statuses)
        l.

Definition getStatistics (m : Manager) (now : Z) : result (gmap string Z) :=
  let values := map snd (map_to_list (states m)) in
  let stats := countByStatus values in
  let stats := <["total" := Z.of_nat (size (states m))]> stats in
  match getProblematicTransactions m now with
  | Throw msg m' => Throw msg m'
  | Ok problematic _ =>
      let stats := <["problematic" := Z.of_nat (length problematic)]> stats in
      let retryable := List.filter (λ s, canRetry m (id s)) values in
      Ok (<["retryable" := Z.of_nat (length retryable)]> stats) m
  end.

(** *** Histories with observers

    The calls of above, and the registration and removal of callbacks. *)
Inductive observedCall : Type :=
| Plain (c : call)
| Subscribe (callback : nat)
| Unsubscribe (callback : nat).

Definition afterObserved (m : Manager) (now : Z) (c : observedCall) : Manager :=
  match c with
  | Plain c => after m now c
  | Subscribe cb => onStatusChange m cb
  | Unsubscribe cb => removeStatusChangeCallback m cb
  end.

Definition runObserved (m : Manager) (calls : list (Z * observedCall)) : Manager :=
  foldl (λ acc tc, afterObserved acc (fst tc) (snd tc)) m calls.

(** What an observer may be told: an edge of the table, or a failure. *)
Definition reportable (n : Notification) : Prop :=
  isValidTransition (oldStatus n) (newStatus n) = true ∨ newStatus n = FAILED.

(** The retry bookkeeping of a state under a configuration. *)
Record retry_wf (cfg : RetryConfig) (state : TransactionState) : Prop := {
  retry_nonneg : 0 ≤ retryCount state;
  retry_bounded : retryCount state ≤ Z.max 0 (maxRetries state);
  retry_limit : maxRetries state = cfg_maxRetries cfg
}.

(** A call that goes through the transition table. *)
Definition usesTable (c : call) : Prop :=
  match c with
  | CallTransitionTo _ _ _ | CallRetryResume _ _ _ => True
  | _ => False
  end.

(** The bookkeeping of a stored state: it sits under its own id, and its
    retry count is within its limit. *)
Definition entry_wf (cfg : RetryConfig) (key : string) (state : TransactionState) : Prop :=
  id state = key ∧ retry_wf cfg state.

(** The bookkeeping of a whole manager under the configuration [cfg]. *)
Definition entries_wf (cfg : RetryConfig) (m : Manager) : Prop :=
  retryConfig m = cfg ∧ map_Forall (entry_wf cfg) (states m).

(** Every notification delivered so far is reportable. *)
Definition all_reportable (m : Manager) : Prop := Forall reportable (notified m).

End TransactionManager.

(** ** services/mock/MockBlockchainService.ts: address validation *)
Module MockBlockchainService.

(** The character class [[a-fA-F0-9]]. *)
Definition isHexDigit (c : ascii) : bool :=
  let n := nat_of_ascii c in
  ((48 <=? n) && (n <=? 57) || (65 <=? n) && (n <=? 70)
   || (97 <=? n) && (n <=? 102))%nat.

(** [/^0x[a-fA-F0-9]{40}$/.test(address)] *)
Definition validateAddress (address : string) : bool :=
  match address with
  | String "0" (String "x" digits) =>
      (String.length digits =? 40)%nat
      && forallb isHexDigit (list_ascii_of_string digits)
  | _ => false
  end.

End MockBlockchainService.

(** ** services/PaymentService.ts

    The service keeps no state of its own: every method reads and rewrites
    the array stored in [localStorage] under ['eztx_transactions']. The
    embedding passes that entry around ([None] when the key is absent). The
    methods are [async]; what is embedded is the code that runs between two
    suspension points, with the values the awaited collaborators produced
    passed in. *)
Module PaymentService.

Record FeeEstimate : Type := {
  onRampFee : Q;
  blockchainFee : Q;
  offRampFee : Q;
  totalFee : Q;
  estimatedTime : Q
}.

Record PaymentRequest : Type := {
  amount : Q;
  currency : string;
  recipientAddress : string;
  recipientENS : option string
}.

Record Transaction : Type := {
  tx_id : string;
  tx_timestamp : Z;
  tx_amount : Q;
  tx_currency : string;
  tx_recipient : string;
  tx_status : TransactionStatus;
  tx_fees : FeeEstimate;
  tx_txHash : option string
}.

Record StoredTransaction : Type := {
  id : string;
  createdAt : Z;
  updatedAt : Z;
  stored_amount : Q;
  stored_currency : string;
  recipient : string;
  stored_recipientENS : option string;
  status : TransactionStatus;
  fees : FeeEstimate;
  txHash : option string;
  fernOnRampId : option string;
  fernOffRampId : option string;
  paymentContractId : option string
}.

(** The [localStorage] entry of the service. *)
Definition Storage : Type := option (list StoredTransaction).

Inductive result (A : Type) : Type :=
| Ok (a : A) (s : Storage)
| Throw (msg : string) (s : Storage).
Arguments Ok {A} a s.
Arguments Throw {A} msg s.

(** What one run of [initiatePayment] reads from its environment:
    [Date.now()] (also taken for the [new Date()] readings of the same
    run), the nine characters cut out of [Math.random().toString(36)], and
    the estimate the awaited [FeeCalculator.calculateFees] resolved to. *)
Record Env : Type := {
  dateNow : Z;
  mathRandom : string;
  calculatedFees : FeeEstimate
}.

(** The keys [updateTransactionField] is called with. *)
Inductive Field : Set := FernOnRampId | TxHash | FernOffRampId.

(** *** Storage access *)

(** [getStoredTransactions]: the stored array, or the empty array. *)
Definition getStoredTransactions (s : Storage) : list StoredTransaction :=
  default [] s.

(** [transactions.find(t => t.id === id)] *)
Definition getStoredTransaction (s : Storage) (i : string) : option StoredTransaction :=
  List.find (λ t, bool_decide (id t = i)) (getStoredTransactions s).

Definition with_status (t : StoredTransaction) (st : TransactionStatus) (now : Z)
    : StoredTransaction :=
  {| id := id t; createdAt := createdAt t; updatedAt := now;
     stored_amount := stored_amount t; stored_currency := stored_currency t;
     recipient := recipient t; stored_recipientENS := stored_recipientENS t;
     status := st; fees := fees t; txHash := txHash t;
     fernOnRampId := fernOnRampId t; fernOffRampId := fernOffRampId t;
     paymentContractId := paymentContractId t |}.

Definition with_field (t : StoredTransaction) (f : Field) (value : string) (now : Z)
    : StoredTransaction :=
  {| id := id t; createdAt := createdAt t; updatedAt := now;
     stored_amount := stored_amount t; stored_currency := stored_currency t;
     recipient := recipient t; stored_recipientENS := stored_recipientENS t;
     status := status t; fees := fees t;
     txHash := match f with TxHash => Some value | _ => txHash t end;
     fernOnRampId := match f with FernOnRampId => Some value | _ => fernOnRampId t end;
     fernOffRampId := match f with FernOffRampId => Some value | _ => fernOffRampId t end;
     paymentContractId := paymentContractId t |}.

(** The array with its first element of id [i] replaced by its image
    under [f]; [None] when no element has that id. *)
Fixpoint update_first (i : string) (f : StoredTransaction → StoredTransaction)
    (l : list StoredTransaction) : option (list StoredTransaction) :=
  match l with
  | [] => None
  | t :: l' =>
      if bool_decide (id t = i) then Some (f t :: l')
      else cons t <$> update_first i f l'
  end.

(** [updateTransactionStatus]: writes only when the id is found. *)
Definition updateTransactionStatus (s : Storage) (now : Z) (i : string)
    (st : TransactionStatus) : Storage :=
  match update_first i (λ t, with_status t st now) (getStoredTransactions s) with
  | Some transactions => Some transactions
  | None => s
  end.

Definition updateTransactionField (s : Storage) (now : Z) (i : string)
    (f : Field) (value : string) : Storage :=
  match update_first i (λ t, with_field t f value now) (getStoredTransactions s) with
  | Some transactions => Some transactions
  | None => s
  end.

(** The record [storeTransaction] builds from a transaction; the fields it
    does not list are [undefined]. *)
Definition stored_of (transaction : Transaction) (now : Z) : StoredTransaction :=
  {| id := tx_id transaction;
     createdAt := tx_timestamp transaction;
     updatedAt := now;
     stored_amount := tx_amount transaction;
     stored_currency := tx_currency transaction;
     recipient := tx_recipient transaction;
     stored_recipientENS := None;
     status := tx_status transaction;
     fees := tx_fees transaction;
     txHash := tx_txHash transaction;
     fernOnRampId := None; fernOffRampId := None;
     paymentContractId := None |}.

(** [storeTransaction]: replaces the record of the same id where
    [findIndex] finds one, appends otherwise. *)
Definition storeTransaction (s : Storage) (now : Z) (transaction : Transaction) : Storage :=
  let stored := stored_of transaction now in
  let transactions := getStoredTransactions s in
  match update_first (tx_id transaction) (λ _, stored) transactions with
  | Some transactions' => Some transactions'
  | None => Some (transactions ++ [stored])%list
  end.

Definition convertStoredToTransaction (stored : StoredTransaction) : Transaction :=
  {| tx_id := id stored;
     tx_timestamp := createdAt stored;
     tx_amount := stored_amount stored;
     tx_currency := stored_currency stored;
     tx_recipient := recipient stored;
     tx_status := status stored;
     tx_fees := fees stored;
     tx_txHash := txHash stored |}.

Definition clearTransactionHistory (s : Storage) : Storage := None.

(** *** Identifiers *)

(** ['tx_' + Date.now() + '_' + Math.random().toString(36).substr(2, 9)] *)
Definition generateTransactionId (e : Env) : string :=
  "tx_" ++ show (dateNow e) ++ "_" ++ mathRandom e.

Definition storage_of {A} (r : result A) : Storage :=
  match r with Ok _ s => s | Throw _ s => s end.

(** *** Calls of [async] methods

    How a call of a method ends for its caller: with an exception thrown
    to the caller, or with a value returned. *)
Inductive callEnd (A : Type) : Type :=
| ThrowsToCaller (msg : string)
| Returned (a : A).
Arguments ThrowsToCaller {A} msg.
Arguments Returned {A} a.

(** What a method body can be suspended on at its first [await]. *)
Inductive awaited : Type :=
| CalculateFees (feeAmount : Q) (feeCurrency : string)
    (** [this.feeCalculator.calculateFees(amount, currency)] *).

(** The promise a call of an [async] method returns, as it is at the
    moment the call returns. *)
Inductive promise (A : Type) : Type :=
| PromiseRejected (msg : string)
| PromiseResolved (a : A)
| PromisePending (waitsFor : awaited).
Arguments PromiseRejected {A} msg.
Arguments PromiseResolved {A} a.
Arguments PromisePending {A} waitsFor.

(** How the body of a method runs up to its first suspension point. *)
Inductive bodyStart (A : Type) : Type :=
| BodyThrows (msg : string)
| BodyReturns (a : A)
| BodyAwaits (waitsFor : awaited).
Arguments BodyThrows {A} msg.
Arguments BodyReturns {A} a.
Arguments BodyAwaits {A} waitsFor.

(** A method declared [async] never throws to its caller: the call returns
    a promise, and what the body throws before its first [await] rejects
    that promise. *)
Definition async {A} (body : bodyStart A) : callEnd (promise A) :=
  Returned
    match body with
    | BodyThrows msg => PromiseRejected msg
    | BodyReturns a => PromiseResolved a
    | BodyAwaits waitsFor => PromisePending waitsFor
    end.

Section WithClient.

(** The injected [BlockchainClient], of which the synchronous code uses
    one method. *)
Variable validateAddress : string → bool.

(** [validatePaymentRequest]: the message of the error thrown, [None]
    when the request passes. [!request.amount] holds of zero, [!s] of
    the empty string. *)
Definition validatePaymentRequest (request : PaymentRequest) : option string :=
  if Qeq_bool (amount request) 0 || Qle_bool (amount request) 0
  then Some "Invalid amount: must be greater than 0"
  else if bool_decide (currency request = "")
  then Some "Currency is required"
  else if bool_decide (recipientAddress request = "")
  then Some "Recipient address is required"
  else if negb (validateAddress (recipientAddress request))
  then Some "Invalid recipient address format"
  else None.

(** The part of [processPayment] that runs before its first [await]:
    steps 1 and 2 up to the call of the on-ramp service. *)
Definition processPayment_start (s : Storage) (now : Z) (i : string) : Storage :=
  let s1 := updateTransactionStatus s now i PENDING in
  updateTransactionStatus s1 now i ON_RAMPING.

(** [initiatePayment] from the resolution of the fee estimate on, in a
    run where the storage entry is the same as when the request was
    validated. The value is what the promise settles to and the storage
    entry at that moment. *)
Definition initiatePayment (e : Env) (s : Storage) (request : PaymentRequest)
    : result Transaction :=
  match validatePaymentRequest request with
  | Some msg => Throw msg s
  | None =>
      let transaction :=
        {| tx_id := generateTransactionId e;
           tx_timestamp := dateNow e;
           tx_amount := amount request;
           tx_currency := currency request;
           tx_recipient := recipientAddress request;
           tx_status := INITIATED;
           tx_fees := calculatedFees e;
           tx_txHash := None |} in
      let s1 := storeTransaction s (dateNow e) transaction in
      Ok transaction (processPayment_start s1 (dateNow e) (tx_id transaction))
  end.

Definition getTransactionStatus (s : Storage) (i : string) : result TransactionStatus :=
  match getStoredTransaction s i with
  | None => Throw ("Transaction not found: " ++ i) s
  | Some transaction => Ok (status transaction) s
  end.

Definition getTransaction (s : Storage) (i : string) : option Transaction :=
  convertStoredToTransaction <$> getStoredTransaction s i.

Definition cancelPayment (s : Storage) (now : Z) (i : string) : result bool :=
  match getStoredTransaction s i with
  | None => Throw ("Transaction not found: " ++ i) s
  | Some transaction =>
      if includes [INITIATED; PENDING; ON_RAMPING] (status transaction)
      then Ok true (updateTransactionStatus s now i FAILED)
      else Ok false s
  end.

(** The request [retryPayment] rebuilds from a stored record. *)
Definition request_of (stored : StoredTransaction) : PaymentRequest :=
  {| amount := stored_amount stored;
     currency := stored_currency stored;
     recipientAddress := recipient stored;
     recipientENS := stored_recipientENS stored |}.

Definition retryPayment (e : Env) (s : Storage) (i : string) : result Transaction :=
  match getStoredTransaction s i with
  | None => Throw ("Transaction not found: " ++ i) s
  | Some stored =>
      if negb (bool_decide (status stored = FAILED))
      then Throw "Can only retry failed transactions" s
      else initiatePayment e s (request_of stored)
  end.

(** *** The call of [initiatePayment] up to its first [await] *)

(** A call of [validatePaymentRequest], which is not [async]: its [throw]
    reaches the caller. *)
Definition validatePaymentRequest_call (request : PaymentRequest) : callEnd unit :=
  match validatePaymentRequest request with
  | Some msg => ThrowsToCaller msg
  | None => Returned tt
  end.

(** The body of [initiatePayment] up to its first [await]: the validation,
    then the call of the fee calculator. The storage entry is neither read
    nor written. *)
Definition initiatePayment_body (request : PaymentRequest) : bodyStart Transaction :=
  match validatePaymentRequest_call request with
  | ThrowsToCaller msg => BodyThrows msg
  | Returned _ => BodyAwaits (CalculateFees (amount request) (currency request))
  end.

(** A call of [async initiatePayment] as it ends for its caller, with the
    storage entry at that moment. *)
Definition initiatePayment_call (s : Storage) (request : PaymentRequest)
    : callEnd (promise Transaction) * Storage :=
  (async (initiatePayment_body request), s).

(** *** Storage entries the service builds *)

(** What the service does to its storage entry: the public methods, and the
    writes of a background pipeline between two of its waits. *)
Inductive action : Type :=
| DoInitiate (e : Env) (request : PaymentRequest)
| DoCancel (now : Z) (i : string)
| DoRetry (e : Env) (i : string)
| DoUpdateStatus (now : Z) (i : string) (st : TransactionStatus)
| DoUpdateField (now : Z) (i : string) (f : Field) (value : string)
| DoClear.

Definition perform (s : Storage) (a : action) : Storage :=
  match a with
  | DoInitiate e request => storage_of (initiatePayment e s request)
  | DoCancel now i => storage_of (cancelPayment s now i)
  | DoRetry e i => storage_of (retryPayment e s i)
  | DoUpdateStatus now i st => updateTransactionStatus s now i st
  | DoUpdateField now i f value => updateTransactionField s now i f value
  | DoClear => clearTransactionHistory s
  end.

(** The entries reached from an absent key. *)
Inductive built : Storage → Prop :=
| built_empty : built None
| built_perform s a : built s → built (perform s a).

(** A record whose payment data would pass the request validation again. *)
Definition well_formed (stored : StoredTransaction) : Prop :=
  validatePaymentRequest (request_of stored) = None.

Definition all_well_formed (s : Storage) : Prop :=
  Forall well_formed (getStoredTransactions s).

End WithClient.

(** *** Auxiliary notions for the statements *)

(** The character [c] occurs in [s]. *)
Fixpoint has_char (c : ascii) (s : string) : bool :=
  match s with
  | EmptyString => false
  | String x s' => Ascii.eqb x c || has_char c s'
  end.

(** The four messages of [validatePaymentRequest]. *)
Definition validationMessages : list string :=
  ["Invalid amount: must be greater than 0"; "Currency is required";
   "Recipient address is required"; "Invalid recipient address format"].

(** *** A sample run: a payment of 50 EUR is initiated, cancelled while
    on-ramping, and retried ten minutes later. *)

Definition sample_fees : FeeEstimate :=
  {| onRampFee := 1; blockchainFee := 2 # 10; offRampFee := 1;
     totalFee := 22 # 10; estimatedTime := 15 |}.

Definition sample_request : PaymentRequest :=
  {| amount := 50; currency := "EUR";
     recipientAddress := "0x742d35Cc6634C0532925a3b8D4C9db96C4b4d8b6";
     recipientENS := None |}.

Definition first_env : Env :=
  {| dateNow := 1700000000000; mathRandom := "k3j2h1g9f";
     calculatedFees := sample_fees |}.

Definition retry_env : Env :=
  {| dateNow := 1700000600000; mathRandom := "a8s7d6f5g";
     calculatedFees := sample_fees |}.

Definition first_id : string := generateTransactionId first_env.

Definition initiated_storage : Storage :=
  storage_of (initiatePayment MockBlockchainService.validateAddress first_env None
                sample_request).

Definition cancelled_storage : Storage :=
  storage_of (cancelPayment initiated_storage 1700000001000 first_id).

(** *** History and progress *)

(** [getTransactionHistory] *)
Definition getTransactionHistory (s : Storage) : list Transaction :=
  map convertStoredToTransaction (getStoredTransactions s).

Definition allSteps : list TransactionStatus :=
  [INITIATED; PENDING; ON_RAMPING; CONVERTING; TRANSFERRING; OFF_RAMPING; COMPLETED].

(** [Array.prototype.indexOf]; [None] is [-1]. *)
Fixpoint indexOf (l : list TransactionStatus) (s : TransactionStatus) : option nat :=
  match l with
  | [] => None
  | x :: l' => if bool_decide (x = s) then Some 0%nat else S <$> indexOf l' s
  end.

(** [currentIndex >= 0 ? allSteps.slice(0, currentIndex) : []] *)
Definition getCompletedSteps (status : TransactionStatus) : list TransactionStatus :=
  match indexOf allSteps status with
  | Some currentIndex => take currentIndex allSteps
  | None => []
  end.

(** [timeEstimates[status] || 0], in minutes. *)
Definition calculateRemainingTime (status : TransactionStatus) : Z :=
  match status with
  | INITIATED => 15
  | PENDING => 12
  | ON_RAMPING => 8
  | CONVERTING => 5
  | TRANSFERRING => 3
  | OFF_RAMPING => 2
  | COMPLETED => 0
  | FAILED => 0
  end.

Definition getStatusMessage (status : TransactionStatus) : string :=
  match status with
  | INITIATED => "Payment initiated, preparing to process..."
  | PENDING => "Payment is being prepared..."
  | ON_RAMPING => "Converting your money to digital currency..."
  | CONVERTING => "Preparing for blockchain transfer..."
  | TRANSFERRING => "Sending payment on the blockchain..."
  | OFF_RAMPING => "Converting to recipient's local currency..."
  | COMPLETED => "Payment completed successfully!"
  | FAILED => "Payment failed. Please try again."
  end.

Record PaymentProgress : Type := {
  currentStep : TransactionStatus;
  completedSteps : list TransactionStatus;
  estimatedTimeRemaining : Z;
  message : string
}.

Definition getPaymentProgress (s : Storage) (i : string) : result PaymentProgress :=
  match getStoredTransaction s i with
  | None => Throw ("Transaction not found: " ++ i) s
  | Some transaction =>
      Ok {| currentStep := status transaction;
            completedSteps := getCompletedSteps (status transaction);
            estimatedTimeRemaining := calculateRemainingTime (status transaction);
            message := getStatusMessage (status transaction) |} s
  end.

(** *** The polling loops

    What the awaited collaborators settle to is an input: a status call of
    the k-th attempt resolves to a value or rejects with a message. *)

Inductive settled (A : Type) : Type :=
| Resolved (a : A)
| Rejected (msg : string).
Arguments Resolved {A} a.
Arguments Rejected {A} msg.

(** The [status] field of the ramp responses. *)
Inductive RampStatus : Set := RampPending | RampProcessing | RampCompleted | RampFailed.

(** The [status] field of [TransactionResponse], and the response as far as
    the loop reads it. *)
Inductive ChainStatus : Set := ChainPending | ChainConfirmed | ChainFailed.

Record TransactionResponse : Type := {
  chain_status : ChainStatus;
  confirmations : option Z
}.

(** How the [try] block of one turn of a loop ends. *)
Inductive tryOutcome : Type :=
| Returns
| Throws (msg : string)
| FallsThrough.

(** What a wait settles to, after [attempts] sleeps of ten seconds. *)
Inductive waitOutcome : Type :=
| WaitResolves (attempts : nat)
| WaitRejects (msg : string) (attempts : nat).

(** [while (attempts < maxAttempts) { try { ... } catch (error) { log }
    await this.delay(10000); attempts++ } throw new Error(timeout)]: what
    the [try] block throws is caught and logged by the [catch] of the same
    turn. [remaining] is [maxAttempts - attempts]. *)
Fixpoint pollLoop (tryBlock : nat → tryOutcome) (remaining attempts : nat)
    (timeout : string) : waitOutcome :=
  match remaining with
  | O => WaitRejects timeout attempts
  | S remaining' =>
      match tryBlock attempts with
      | Returns => WaitResolves attempts
      | Throws _ => pollLoop tryBlock remaining' (S attempts) timeout
      | FallsThrough => pollLoop tryBlock remaining' (S attempts) timeout
      end
  end.

(** The [try] block of [waitForOnRampCompletion]. *)
Definition onRampTry (r : settled RampStatus) : tryOutcome :=
  match r with
  | Rejected msg => Throws msg
  | Resolved RampCompleted => Returns
  | Resolved RampFailed => Throws "On-ramp failed"
  | Resolved _ => FallsThrough
  end.

Definition waitForOnRampCompletion (getOnRampStatus : nat → settled RampStatus)
    : waitOutcome :=
  pollLoop (λ k, onRampTry (getOnRampStatus k)) 30 0 "On-ramp timeout".

(** The [try] block of [waitForBlockchainConfirmation]:
    [status.status === 'confirmed' && (status.confirmations || 0) >= 3]. *)
Definition confirmationTry (r : settled TransactionResponse) : tryOutcome :=
  match r with
  | Rejected msg => Throws msg
  | Resolved response =>
      match chain_status response with
      | ChainConfirmed =>
          if (3 <=? default 0 (confirmations response))%Z then Returns else FallsThrough
      | ChainFailed => Throws "Blockchain transaction failed"
      | ChainPending => FallsThrough
      end
  end.

Definition waitForBlockchainConfirmation
    (getTransactionStatus : nat → settled TransactionResponse) : waitOutcome :=
  pollLoop (λ k, confirmationTry (getTransactionStatus k)) 60 0
    "Blockchain confirmation timeout".

(** The [try] block of [waitForOffRampCompletion]. *)
Definition offRampTry (r : settled RampStatus) : tryOutcome :=
  match r with
  | Rejected msg => Throws msg
  | Resolved RampCompleted => Returns
  | Resolved RampFailed => Throws "Off-ramp failed"
  | Resolved _ => FallsThrough
  end.

Definition waitForOffRampCompletion (getOffRampStatus : nat → settled RampStatus)
    : waitOutcome :=
  pollLoop (λ k, offRampTry (getOffRampStatus k)) 20 0 "Off-ramp timeout".

(** *** [processPayment]

    What the collaborators of one payment settle to: the ids of the
    responses of the three initiating calls, and the status calls of each
    wait ([getBlockchainStatus] is the client's [getTransactionStatus]). *)
Record Collaborators : Type := {
  initiateOnRamp : settled string;
  getOnRampStatus : nat → settled RampStatus;
  sendPYUSD : settled string;
  getBlockchainStatus : nat → settled TransactionResponse;
  initiateOffRamp : settled string;
  getOffRampStatus : nat → settled RampStatus
}.

(** The [catch] of [processPayment]: the status is set to FAILED and the
    error is thrown again. *)
Definition processPayment_catch (s : Storage) (now : Z) (i : string) (msg : string)
    : result unit :=
  Throw msg (updateTransactionStatus s now i FAILED).

(** [processPayment] from its first [await] on, in a run during whose
    waits nothing else writes the storage entry. [clock k] is the clock
    reading at the k-th write of the pipeline, counted from 2 (the two
    writes before the first [await] are [processPayment_start]); 9 is the
    write of the [catch]. *)
Definition processPayment_rest (c : Collaborators) (clock : nat → Z) (s : Storage)
    (i : string) : result unit :=
  match initiateOnRamp c with
  | Rejected msg => processPayment_catch s (clock 9%nat) i msg
  | Resolved onRampId =>
      let s := updateTransactionField s (clock 2%nat) i FernOnRampId onRampId in
      match waitForOnRampCompletion (getOnRampStatus c) with
      | WaitRejects msg _ => processPayment_catch s (clock 9%nat) i msg
      | WaitResolves _ =>
          let s := updateTransactionStatus s (clock 3%nat) i CONVERTING in
          let s := updateTransactionStatus s (clock 4%nat) i TRANSFERRING in
          match sendPYUSD c with
          | Rejected msg => processPayment_catch s (clock 9%nat) i msg
          | Resolved hash =>
              let s := updateTransactionField s (clock 5%nat) i TxHash hash in
              match waitForBlockchainConfirmation (getBlockchainStatus c) with
              | WaitRejects msg _ => processPayment_catch s (clock 9%nat) i msg
              | WaitResolves _ =>
                  let s := updateTransactionStatus s (clock 6%nat) i OFF_RAMPING in
                  match initiateOffRamp c with
                  | Rejected msg => processPayment_catch s (clock 9%nat) i msg
                  | Resolved offRampId =>
                      let s :=
                        updateTransactionField s (clock 7%nat) i FernOffRampId offRampId in
                      match waitForOffRampCompletion (getOffRampStatus c) with
                      | WaitRejects msg _ => processPayment_catch s (clock 9%nat) i msg
                      | WaitResolves _ =>
                          Ok tt (updateTransactionStatus s (clock 8%nat) i COMPLETED)
                      end
                  end
              end
          end
      end
  end.

(** The whole background task [initiatePayment] starts:
    [processPayment(...).catch(error => updateTransactionStatus(id, FAILED))],
    as the storage entry it leaves. *)
Definition backgroundTask (c : Collaborators) (clock : nat → Z) (s : Storage)
    (i : string) : Storage :=
  match processPayment_rest c clock (processPayment_start s (clock 0%nat) i) i with
  | Ok _ s' => s'
  | Throw _ s' => updateTransactionStatus s' (clock 10%nat) i FAILED
  end.

(** Every collaborator succeeds at once. *)
Definition cooperative : Collaborators :=
  {| initiateOnRamp := Resolved "fern_on1";
     getOnRampStatus := λ _, Resolved RampCompleted;
     sendPYUSD := Resolved "0xhash";
     getBlockchainStatus :=
       λ _, Resolved {| chain_status := ChainConfirmed; confirmations := Some 3%Z |};
     initiateOffRamp := Resolved "fern_off1";
     getOffRampStatus := λ _, Resolved RampCompleted |}.

(** The on-ramp reports a failure at every poll. *)
Definition failingOnRamp : Collaborators :=
  {| initiateOnRamp := Resolved "fern_on1";
     getOnRampStatus := λ _, Resolved RampFailed;
     sendPYUSD := Resolved "0xhash";
     getBlockchainStatus :=
       λ _, Resolved {| chain_status := ChainConfirmed; confirmations := Some 3%Z |};
     initiateOffRamp := Resolved "fern_off1";
     getOffRampStatus := λ _, Resolved RampCompleted |}.

(** *** Auxiliary notions for the statements about the pipeline *)

(** A response of the blockchain client that ends the confirmation wait. *)
Definition enoughConfirmations (r : settled TransactionResponse) : Prop :=
  ∃ n, r = Resolved {| chain_status := ChainConfirmed; confirmations := Some n |}
       ∧ (3 ≤ n)%Z.

(** A clock for the sample pipelines: one second per write. *)
Definition sample_clock (k : nat) : Z := 1700000002000 + 1000 * Z.of_nat k.

End PaymentService.


(** * Properties *)

(** ** Helper facts on statuses *)

Lemma includes_In l s : includes l s = true ↔ In s l.
Proof.
  unfold includes. rewrite existsb_exists. split.
  - intros (x & Hx & Heq). apply bool_decide_eq_true in Heq. by subst.
  - intros Hin. exists s. split; [done | by apply bool_decide_eq_true].
Qed.

Lemma includes_false_In l s : includes l s = false ↔ ¬ In s l.
Proof. rewrite <- includes_In. destruct (includes l s); naive_solver. Qed.

Lemma all_statuses_complete s : In s all_statuses.
Proof. destruct s; simpl; tauto. Qed.

Lemma successive_cases a b :
  SpecGraph.successive a b ↔
  (a, b) ∈ [(INITIATED, PENDING); (PENDING, ON_RAMPING); (ON_RAMPING, CONVERTING);
            (CONVERTING, TRANSFERRING); (TRANSFERRING, OFF_RAMPING);
            (OFF_RAMPING, COMPLETED)].
Proof.
  unfold SpecGraph.successive, SpecGraph.pipeline. split.
  - intros (i & Ha & Hb).
    do 7 (destruct i as [|i]; simpl in *;
          [inversion Ha; inversion Hb; subst; set_solver |]).
    destruct i; discriminate.
  - rewrite !elem_of_cons, elem_of_nil.
    intros [H|[H|[H|[H|[H|[H|[]]]]]]]; inversion H; subst;
      [by exists 0%nat | by exists 1%nat | by exists 2%nat | by exists 3%nat
      | by exists 4%nat | by exists 5%nat].
Qed.

Module TransactionManagerProofs.
Import TransactionManager.
Open Scope Z_scope.
Open Scope list_scope.

Lemma edge_valid a b : SpecGraph.edge a b → isValidTransition a b = true.
Proof.
  intros [x y Hs | s Hs | ].
  - apply successive_cases in Hs.
    rewrite !elem_of_cons, elem_of_nil in Hs.
    destruct Hs as [H|[H|[H|[H|[H|[H|[]]]]]]]; by inversion H.
  - destruct s; try reflexivity; exfalso; apply Hs; unfold SpecGraph.terminal; tauto.
  - reflexivity.
Qed.

Lemma valid_edge a b : isValidTransition a b = true → SpecGraph.edge a b.
Proof.
  destruct a, b; intros H; try discriminate H;
    first [ apply SpecGraph.edge_retry
          | apply SpecGraph.edge_fail; unfold SpecGraph.terminal;
            intros [?|?]; discriminate
          | apply SpecGraph.edge_step, successive_cases; set_solver ].
Qed.

(** C1. [isValidTransition from to] is [true] exactly on the edges of the
    graph of section 3 (the successive pipeline steps, failure from every
    non-terminal status, and the retry edge from FAILED to PENDING), and is
    [false] on every other pair; in particular on every self-loop and on
    every pair that leaves COMPLETED. *)
Theorem isValidTransition_iff_edge (from to : TransactionStatus) :
  (isValidTransition from to = true ↔ SpecGraph.edge from to)
  ∧ (isValidTransition from to = false ↔ ¬ SpecGraph.edge from to)
  ∧ isValidTransition from from = false
  ∧ isValidTransition COMPLETED to = false.
Proof.
  assert (Hiff : isValidTransition from to = true ↔ SpecGraph.edge from to)
    by (split; [apply valid_edge | apply edge_valid]).
  split; [exact Hiff | split; [| split]].
  - split.
    + intros Hf He. apply Hiff in He. congruence.
    + intros Hn. destruct (isValidTransition from to) eqn:E; [|done].
      exfalso. by apply Hn, Hiff.
  - by destruct from.
  - by destruct to.
Qed.

(** ** The transition log *)

Lemma continuous_lookup (l : list StateTransition) :
  continuous l ↔
  ∀ (i : nat) a b, l !! i = Some a → l !! S i = Some b → from b = to a.
Proof.
  induction l as [|t l IH]; simpl.
  - split; [intros _ i a b H; discriminate H | done].
  - rewrite IH. split.
    + intros [Hhd Htl] [|i] a b Ha Hb; simpl in *.
      * destruct l as [|t' l]; [discriminate Hb|].
        simpl in Hb. by simplify_eq.
      * by eapply Htl.
    + intros H. split.
      * destruct l as [|t' l]; [done|]. by apply (H 0%nat).
      * intros i a b Ha Hb. by apply (H (S i)).
Qed.

Lemma continuous_snoc (l : list StateTransition) t :
  continuous l → (∀ t0, last l = Some t0 → from t = to t0) →
  continuous (l ++ [t]).
Proof.
  induction l as [|t1 l IH]; simpl; [done|].
  intros [Hhd Htl] Hlast. split.
  - destruct l as [|t2 l]; simpl; [by apply Hlast | done].
  - apply IH; [done|]. intros t0 Ht0. apply Hlast.
    destruct l; [discriminate Ht0 | done].
Qed.

Lemma ends_at_snoc (l : list StateTransition) t : ends_at (l ++ [t]) (to t).
Proof. exists t. by rewrite last_snoc. Qed.

Lemma snoc_not_nil {A} (l : list A) x : l ++ [x] ≠ [].
Proof. by destruct l. Qed.

(** Appending a transition that starts at the current status and installing
    its target as the new current status keeps a state well formed. *)
Lemma state_wf_append state state' t :
  state_wf state →
  from t = currentStatus state →
  transitions state' = transitions state ++ [t] →
  currentStatus state' = to t →
  state_wf state'.
Proof.
  intros [Hne (t0 & Hlast & Hto) Hcont] Hfrom Htr Hcur. split.
  - rewrite Htr. apply snoc_not_nil.
  - rewrite Htr, Hcur. apply ends_at_snoc.
  - rewrite Htr. apply continuous_snoc; [done|].
    intros t1 Ht1. rewrite Hlast in Ht1. injection Ht1 as <-. congruence.
Qed.

(** A change that touches neither the log nor the current status. *)
Lemma state_wf_same_log state state' :
  state_wf state →
  transitions state' = transitions state →
  currentStatus state' = currentStatus state →
  state_wf state'.
Proof. intros [? ? ?] Htr Hcur. split; by rewrite Htr, ?Hcur. Qed.

(** ** The store invariant *)

Lemma all_wf_states m m' : states m' = states m → all_wf m → all_wf m'.
Proof. unfold all_wf. by intros ->. Qed.

Lemma all_wf_insert m i st :
  all_wf m → state_wf st → all_wf (set_states m (<[i := st]> (states m))).
Proof. unfold all_wf. simpl. intros. by apply map_Forall_insert_2. Qed.

Lemma all_wf_new p : all_wf (new p None).
Proof. unfold all_wf. simpl. apply map_Forall_empty. Qed.

Lemma all_wf_initializeTransaction m now i s :
  all_wf m → all_wf (snd (initializeTransaction m now i s)).
Proof.
  intros H. simpl. eapply all_wf_states; [reflexivity|].
  apply all_wf_insert; [done|].
  split; simpl; [done | by eexists | done].
Qed.

Lemma all_wf_transitionTo m now i s r :
  all_wf m → all_wf (manager_of (transitionTo m now i s r)).
Proof.
  intros H. unfold transitionTo.
  destruct (states m !! i) as [st|] eqn:Hst; [|done].
  destruct (negb _); [done|]. simpl.
  eapply all_wf_states; [reflexivity|]. apply all_wf_insert; [done|].
  eapply state_wf_append; [by eapply H | | simpl; reflexivity | ]; reflexivity.
Qed.

Lemma all_wf_markAsFailed m now i e r :
  all_wf m → all_wf (manager_of (markAsFailed m now i e r)).
Proof.
  intros H. unfold markAsFailed.
  destruct (states m !! i) as [st|] eqn:Hst; [|done]. simpl.
  eapply all_wf_states; [reflexivity|]. apply all_wf_insert; [done|].
  eapply state_wf_append; [by eapply H | | simpl; reflexivity | ]; reflexivity.
Qed.

Lemma all_wf_retry_begin m i :
  all_wf m →
  all_wf (match retryTransaction_begin m i with
          | RetryAwaits _ _ m' => m'
          | _ => m
          end).
Proof.
  intros H. unfold retryTransaction_begin.
  destruct (states m !! i) as [st|] eqn:Hst; [|done].
  destruct (negb _); [done|].
  apply all_wf_insert; [done|].
  eapply state_wf_same_log; [by eapply H | ..]; reflexivity.
Qed.

Lemma all_wf_retryTransaction m now i r :
  all_wf m → all_wf (manager_of (snd (retryTransaction m now i r))).
Proof.
  intros H. unfold retryTransaction.
  pose proof (all_wf_retry_begin m i H) as Hb.
  destruct (retryTransaction_begin m i); simpl; try done.
  by apply all_wf_transitionTo.
Qed.

Lemma all_wf_setMetadata m i k v :
  all_wf m → all_wf (manager_of (setMetadata m i k v)).
Proof.
  intros H. unfold setMetadata.
  destruct (states m !! i) as [st|] eqn:Hst; [|done]. simpl.
  eapply all_wf_states; [reflexivity|]. apply all_wf_insert; [done|].
  eapply state_wf_same_log; [by eapply H | ..]; reflexivity.
Qed.

Lemma all_wf_cleanup_step now a acc entry :
  all_wf (manager_of acc) → all_wf (manager_of (cleanup_step now a acc entry)).
Proof.
  intros H. destruct acc as [n m | msg m]; [|done].
  destruct entry as [i st]. simpl.
  destruct (decide _); [|done].
  destruct (last _); [|done].
  destruct (_ >? _); [|done]. simpl.
  unfold all_wf in *. simpl in *. by apply map_Forall_delete.
Qed.

Lemma all_wf_cleanup_loop now a l acc :
  all_wf (manager_of acc) →
  all_wf (manager_of (foldl (cleanup_step now a) acc l)).
Proof.
  revert acc. induction l as [|e l IH]; intros acc H; simpl; [done|].
  by apply IH, all_wf_cleanup_step.
Qed.

Lemma all_wf_cleanupOldTransactions m now a :
  all_wf m → all_wf (manager_of (cleanupOldTransactions m now a)).
Proof.
  intros H. unfold cleanupOldTransactions.
  pose proof (all_wf_cleanup_loop now a (map_to_list (states m)) (Ok 0 m) H) as Hl.
  destruct (foldl _ _ _) as [n m' | msg m']; simpl in *; [|done].
  by destruct (0 <? n).
Qed.

Lemma all_wf_after m now c : all_wf m → all_wf (after m now c).
Proof.
  intros H. destruct c; unfold after.
  - by apply all_wf_initializeTransaction.
  - by apply all_wf_transitionTo.
  - by apply all_wf_markAsFailed.
  - by apply all_wf_retryTransaction.
  - by apply all_wf_retry_begin.
  - by apply all_wf_transitionTo.
  - by apply all_wf_setMetadata.
  - by apply all_wf_cleanupOldTransactions.
Qed.

Lemma reachable_all_wf p m : reachable p m → all_wf m.
Proof. induction 1; [apply all_wf_new | by apply all_wf_after]. Qed.

Lemma reachable_run p m calls : reachable p m → reachable p (run m calls).
Proof.
  revert m. induction calls as [|[now c] calls IH]; intros m H; simpl; [done|].
  apply IH. by constructor.
Qed.

(** C2. In every manager reached from a fresh one by calls of
    [initializeTransaction], [transitionTo], [markAsFailed] and
    [retryTransaction] (whole, or split at its wait with other calls in
    between; metadata writes and clean-ups may be interleaved too), every
    stored state has a non-empty transition log, the last entry of the log
    ends at [currentStatus], and every entry starts where the entry before
    it ended. *)
Theorem reachable_log_invariant (p : PartialRetryConfig) (m : Manager)
    (transactionId : string) (state : TransactionState) :
  reachable p m →
  states m !! transactionId = Some state →
  transitions state ≠ []
  ∧ (∃ t, last (transitions state) = Some t ∧ to t = currentStatus state)
  ∧ (∀ (i : nat) a b,
       transitions state !! i = Some a →
       transitions state !! S i = Some b →
       from b = to a).
Proof.
  intros Hr Hst.
  destruct (reachable_all_wf p m Hr transactionId state Hst) as [H1 H2 H3].
  split; [done | split; [done|]]. by apply continuous_lookup.
Qed.

(** ** [transitionTo] *)

(** C3. [transitionTo] on an id with no state throws the not-found error;
    on an id whose current status has no edge to the requested status it
    returns [false] and hands back the very same manager: no status change,
    no appended transition, nothing saved, no observer called. In
    particular, right after [initializeTransaction(id)] a transition to
    COMPLETED returns [false] and the status still reads INITIATED. *)
Theorem transitionTo_rejection (m : Manager) (now : Z) (transactionId : string)
    (newStatus : TransactionStatus) (reason : option string) :
  (states m !! transactionId = None →
   transitionTo m now transactionId newStatus reason
   = Throw ("Transaction state not found: " ++ transactionId)%string m)
  ∧ (∀ state,
       states m !! transactionId = Some state →
       isValidTransition (currentStatus state) newStatus = false →
       transitionTo m now transactionId newStatus reason = Ok false m)
  ∧ (∀ created : Z,
       let fresh := snd (initializeTransaction m created transactionId INITIATED) in
       transitionTo fresh now transactionId COMPLETED reason = Ok false fresh
       ∧ getCurrentStatus fresh transactionId = Some INITIATED).
Proof.
  split; [|split].
  - intros Hnone. unfold transitionTo. by rewrite Hnone.
  - intros state Hst Hinv. unfold transitionTo. by rewrite Hst, Hinv.
  - intros created fresh.
    assert (Hl : ∃ state, states fresh !! transactionId = Some state
                          ∧ currentStatus state = INITIATED).
    { eexists. split; [apply lookup_insert_eq | reflexivity]. }
    destruct Hl as (state & Hst & Hcur). split.
    + unfold transitionTo. by rewrite Hst, Hcur.
    + unfold getCurrentStatus. by rewrite Hst, <- Hcur.
Qed.

(** ** [markAsFailed] *)

(** C9. [markAsFailed] consults no transition table: on a state whose
    current status is terminal (COMPLETED, or FAILED already), a pair the
    table rejects, it still returns normally, and the stored state then
    reads FAILED, has [lastError] set to the given error, remembers the old
    status as [previousStatus], and has one more log entry, from the old
    status to FAILED, carrying the error. *)
Theorem markAsFailed_ignores_terminal (m : Manager) (now : Z) (transactionId : string)
    (error : string) (reason : option string) (state : TransactionState) :
  states m !! transactionId = Some state →
  SpecGraph.terminal (currentStatus state) →
  isValidTransition (currentStatus state) FAILED = false
  ∧ ∃ m' state',
      markAsFailed m now transactionId error reason = Ok tt m'
      ∧ states m' !! transactionId = Some state'
      ∧ currentStatus state' = FAILED
      ∧ lastError state' = Some error
      ∧ previousStatus state' = Some (currentStatus state)
      ∧ transitions state'
        = transitions state
          ++ [{| from := currentStatus state; to := FAILED; timestamp := now;
                 reason := Some (or_default reason "Transaction failed");
                 error := Some error |}].
Proof.
  intros Hst Hterm. split.
  - destruct Hterm as [-> | ->]; reflexivity.
  - unfold markAsFailed. rewrite Hst. do 2 eexists.
    split; [reflexivity|]. split; [apply lookup_insert_eq|]. by simpl.
Qed.

(** ** [retryTransaction] *)

Lemma canRetry_true m i state :
  states m !! i = Some state →
  In (currentStatus state) (retryableStatuses (retryConfig m)) →
  retryCount state < maxRetries state →
  canRetry m i = true.
Proof.
  intros Hst Hin Hlt. unfold canRetry. rewrite Hst.
  apply andb_true_iff. split; [by apply includes_In | by apply Z.ltb_lt].
Qed.

(** C10. On a PENDING state that still has retries left (PENDING being in
    the retryable set, as in the default configuration) [canRetry] is true,
    and a [retryTransaction] run with nothing else in between waits the
    back-off delay and then returns [false]: the table has no edge from
    PENDING to PENDING. The only change to the manager is the retry count of
    that state, one higher; status, log, storage and notifications are as
    before. *)
Theorem retryTransaction_pending_burns_attempt (m : Manager) (now : Z)
    (transactionId : string) (retryReason : option string) (state : TransactionState) :
  states m !! transactionId = Some state →
  currentStatus state = PENDING →
  retryCount state < maxRetries state →
  In PENDING (retryableStatuses (retryConfig m)) →
  canRetry m transactionId = true
  ∧ isValidTransition PENDING PENDING = false
  ∧ retryTransaction m now transactionId retryReason
    = (Some (backoffDelay (retryConfig m) (retryCount state + 1)),
       Ok false
         (set_states m
            (<[transactionId := set_retryCount state (retryCount state + 1)]>
               (states m))))
  ∧ currentStatus (set_retryCount state (retryCount state + 1)) = PENDING
  ∧ transitions (set_retryCount state (retryCount state + 1)) = transitions state.
Proof.
  intros Hst Hcur Hlt Hin.
  assert (Hcan : canRetry m transactionId = true).
  { eapply canRetry_true; [done | by rewrite Hcur | done]. }
  split; [done | split; [reflexivity|]].
  split; [|split; [by simpl | reflexivity]].
  unfold retryTransaction, retryTransaction_begin. rewrite Hst, Hcan. simpl.
  unfold retryTransaction_resume, transitionTo. simpl.
  rewrite lookup_insert_eq. simpl. rewrite Hcur. reflexivity.
Qed.

(** C4, as the code has it. [retryTransaction] on an id with no state
    throws the not-found error (and [canRetry] is false there); on a stored
    state for which [canRetry] is false it returns [false] at once and
    hands back the very same manager. On a stored FAILED state with retries
    left (FAILED being in the retryable set, as in the default
    configuration, and the retry count not negative, as in every manager
    reached from a fresh one) the call raises the retry count by exactly
    one and suspends on the delay
    [retryDelayMs * backoffMultiplier ^ (retryCount - 1)] for the raised
    count, changing nothing else. What it does when the delay has passed
    depends on the state stored under the id at that moment, whatever ran
    on the manager in between: if that state is FAILED (or INITIATED), the
    transition to PENDING is appended and the call returns [true], the
    retry count staying as it is; if it has any other status, the call
    returns [false] and hands back the very same manager; if there is no
    state any more, it throws the not-found error. So a call with nothing
    else in between appends the transition from FAILED to PENDING and
    returns [true]. *)
Theorem retryTransaction_spec (m : Manager) (now : Z) (transactionId : string)
    (retryReason : option string) :
  (states m !! transactionId = None →
   canRetry m transactionId = false
   ∧ retryTransaction m now transactionId retryReason
     = (None, Throw ("Transaction state not found: " ++ transactionId)%string m))
  ∧ (∀ state,
       states m !! transactionId = Some state →
       canRetry m transactionId = false →
       retryTransaction m now transactionId retryReason = (None, Ok false m))
  ∧ (∀ state,
       states m !! transactionId = Some state →
       currentStatus state = FAILED →
       retryCount state < maxRetries state →
       0 ≤ retryCount state →
       In FAILED (retryableStatuses (retryConfig m)) →
       ∃ m' state',
         retryTransaction m now transactionId retryReason
         = (Some (retryDelayMs (retryConfig m)
                  * backoffMultiplier (retryConfig m) ^ (retryCount state' - 1)),
            Ok true m')
         ∧ states m' !! transactionId = Some state'
         ∧ retryCount state' = retryCount state + 1
         ∧ currentStatus state' = PENDING
         ∧ previousStatus state' = Some FAILED
         ∧ transitions state'
           = transitions state
             ++ [{| from := FAILED; to := PENDING; timestamp := now;
                    reason :=
                      Some (or_default retryReason
                              ("Retry attempt " ++ show (retryCount state + 1))%string);
                    error := None |}]
         ∧ ∀ other, other ≠ transactionId → states m' !! other = states m !! other)
  ∧ (∀ state,
       states m !! transactionId = Some state →
       currentStatus state = FAILED →
       retryCount state < maxRetries state →
       0 ≤ retryCount state →
       In FAILED (retryableStatuses (retryConfig m)) →
       ∃ suspended state1,
         retryTransaction_begin m transactionId
         = RetryAwaits
             (retryDelayMs (retryConfig m)
              * backoffMultiplier (retryConfig m) ^ (retryCount state + 1 - 1))
             (retryCount state + 1) suspended
         ∧ states suspended !! transactionId = Some state1
         ∧ retryCount state1 = retryCount state + 1
         ∧ currentStatus state1 = FAILED
         ∧ transitions state1 = transitions state
         ∧ (∀ other, other ≠ transactionId →
                     states suspended !! other = states m !! other)
         ∧ storage suspended = storage m
         ∧ notified suspended = notified m)
  ∧ (∀ resumed attempt,
       (states resumed !! transactionId = None →
        retryTransaction_resume resumed now transactionId retryReason attempt
        = Throw ("Transaction state not found: " ++ transactionId)%string resumed)
       ∧ (∀ state2,
            states resumed !! transactionId = Some state2 →
            currentStatus state2 ≠ FAILED →
            currentStatus state2 ≠ INITIATED →
            retryTransaction_resume resumed now transactionId retryReason attempt
            = Ok false resumed)
       ∧ (∀ state2,
            states resumed !! transactionId = Some state2 →
            currentStatus state2 = FAILED ∨ currentStatus state2 = INITIATED →
            ∃ m' state',
              retryTransaction_resume resumed now transactionId retryReason attempt
              = Ok true m'
              ∧ states m' !! transactionId = Some state'
              ∧ retryCount state' = retryCount state2
              ∧ currentStatus state' = PENDING
              ∧ previousStatus state' = Some (currentStatus state2)
              ∧ transitions state'
                = transitions state2
                  ++ [{| from := currentStatus state2; to := PENDING;
                         timestamp := now;
                         reason :=
                           Some (or_default retryReason
                                   ("Retry attempt " ++ show attempt)%string);
                         error := None |}]
              ∧ ∀ other, other ≠ transactionId →
                         states m' !! other = states resumed !! other)).
Proof.
  split; [|split; [|split; [|split]]].
  - intros Hnone. unfold retryTransaction, retryTransaction_begin, canRetry.
    by rewrite Hnone.
  - intros state Hst Hcan. unfold retryTransaction, retryTransaction_begin.
    by rewrite Hst, Hcan.
  - intros state Hst Hcur Hlt _ Hin.
    assert (Hcan : canRetry m transactionId = true).
    { eapply canRetry_true; [done | by rewrite Hcur | done]. }
    unfold retryTransaction, retryTransaction_begin. rewrite Hst, Hcan. simpl.
    unfold retryTransaction_resume, transitionTo. simpl.
    rewrite lookup_insert_eq. simpl. rewrite Hcur. simpl.
    match goal with |- ∃ m' _, (_, Ok true ?M) = _ ∧ _ => exists M end.
    eexists. split; cycle 1.
    { split; [apply lookup_insert_eq|].
      repeat (split; [reflexivity|]).
      intros other Hne. simpl. by rewrite !lookup_insert_ne. }
    reflexivity.
  - intros state Hst Hcur Hlt _ Hin.
    assert (Hcan : canRetry m transactionId = true).
    { eapply canRetry_true; [done | by rewrite Hcur | done]. }
    unfold retryTransaction_begin. rewrite Hst, Hcan. simpl.
    do 2 eexists. split; [reflexivity|].
    split; [apply lookup_insert_eq|].
    split; [reflexivity|]. split; [exact Hcur|]. split; [reflexivity|].
    split; [|split; reflexivity].
    intros other Hne. simpl. by rewrite lookup_insert_ne.
  - intros resumed attempt. unfold retryTransaction_resume, transitionTo.
    split; [|split].
    + intros Hnone. by rewrite Hnone.
    + intros state2 Hst Hf Hi. rewrite Hst.
      by destruct (currentStatus state2).
    + intros state2 Hst Hcur. rewrite Hst.
      assert (Hv : isValidTransition (currentStatus state2) PENDING = true)
        by (by destruct Hcur as [-> | ->]).
      rewrite Hv. simpl.
      do 2 eexists. split; [reflexivity|].
      split; [apply lookup_insert_eq|].
      repeat (split; [reflexivity|]).
      intros other Hne. simpl. by rewrite lookup_insert_ne.
Qed.

(** C4 as it was stated fails on an unknown id: [canRetry] is false there,
    yet the call does not return [false], it throws. *)
Lemma retryTransaction_unknown_id_throws :
  canRetry (new noOverrides None) "tx-404" = false
  ∧ snd (retryTransaction (new noOverrides None) 0 "tx-404" None)
    = Throw "Transaction state not found: tx-404" (new noOverrides None)
  ∧ snd (retryTransaction (new noOverrides None) 0 "tx-404" None)
    ≠ Ok false (new noOverrides None).
Proof.
  split; [reflexivity | split; [reflexivity|]].
  intros H. discriminate H.
Qed.

(** ** [cleanupOldTransactions] *)

Lemma set_states_id m : set_states m (states m) = m.
Proof. by destruct m. Qed.

Lemma set_states_twice m s1 s2 : set_states (set_states m s1) s2 = set_states m s2.
Proof. reflexivity. Qed.

(** Deleting the keys of a list of entries, one after the other. *)
Lemma lookup_delete_all {A} (ks : list (string * A)) (s : gmap string A) i :
  foldl (λ acc kv, delete kv.1 acc) s ks !! i
  = if decide (i ∈ ks.*1) then None else s !! i.
Proof.
  revert s. induction ks as [|[k x] ks IH]; intros s.
  - cbn [foldl]. rewrite decide_False; [done | apply not_elem_of_nil].
  - cbn [foldl]. rewrite IH, fmap_cons. cbn [fst].
    destruct (decide (i ∈ ks.*1)) as [Hin|Hin].
    + rewrite decide_True; [done | by right].
    + destruct (decide (i = k)) as [->|Hne].
      * rewrite lookup_delete_eq, decide_True; [done | by left].
      * rewrite lookup_delete_ne by done.
        rewrite decide_False; [done|]. by intros [?|?]%elem_of_cons.
Qed.

(** One turn of the loop against the predicate of the specification. *)
Lemma cleanup_step_expired now a n m0 i st :
  transitions st ≠ [] →
  cleanup_step now a (Ok n m0) (i, st)
  = if decide (expired now a st)
    then Ok (n + 1) (set_states m0 (delete i (states m0)))
    else Ok n m0.
Proof.
  intros Hne. unfold cleanup_step.
  destruct (decide (expired now a st)) as [[Hc He]|He]; unfold expired in *.
  - rewrite decide_True by done.
    destruct (last (transitions st)) as [t|]; [|done].
    destruct (Z.gtb_spec (now - timestamp t) a); [done | lia].
  - destruct (decide (currentStatus st = COMPLETED)) as [Hc|Hc]; [|done].
    destruct (last (transitions st)) as [t|] eqn:Hlast.
    + destruct (Z.gtb_spec (now - timestamp t) a); [|done].
      exfalso. apply He. split; [done | lia].
    + apply last_None in Hlast. contradiction.
Qed.

Lemma cleanup_loop_expired now a (l : list (string * TransactionState)) :
  ∀ n m0,
    Forall (λ kv, transitions kv.2 ≠ []) l →
    foldl (cleanup_step now a) (Ok n m0) l
    = Ok (n + Z.of_nat (length (filter (λ kv, expired now a kv.2) l)))
         (set_states m0
            (foldl (λ acc kv, delete kv.1 acc) (states m0)
                   (filter (λ kv, expired now a kv.2) l))).
Proof.
  induction l as [|[i st] l IH]; intros n m0 Hall.
  - simpl. by rewrite Z.add_0_r, set_states_id.
  - apply Forall_cons in Hall as [Hst Hall]. simpl in Hst.
    cbn [foldl]. rewrite cleanup_step_expired by done.
    rewrite filter_cons. cbn [snd].
    destruct (decide (expired now a st)) as [He|He].
    + rewrite IH by done. cbn [foldl length fst]. f_equal. lia.
    + by rewrite IH.
Qed.

Lemma size_filter_to_list {A} (P : string * A → Prop) `{∀ x, Decision (P x)}
    (s : gmap string A) :
  size (filter P s) = length (filter P (map_to_list s)).
Proof.
  rewrite map_filter_alt. apply map_size_list_to_map.
  eapply NoDup_fmap_fst.
  - intros k x y Hx Hy.
    apply list_elem_of_filter in Hx as [_ Hx]. apply list_elem_of_filter in Hy as [_ Hy].
    apply elem_of_map_to_list in Hx, Hy. congruence.
  - apply NoDup_filter, NoDup_map_to_list.
Qed.

Lemma length_filter_split {A} (P : A → Prop) `{∀ x, Decision (P x)} (l : list A) :
  (length (filter P l) + length (filter (λ x, ¬ P x) l) = length l)%nat.
Proof.
  induction l as [|x l IH]; [done|].
  rewrite !filter_cons. destruct (decide (P x)).
  - rewrite decide_False by tauto. simpl. lia.
  - rewrite decide_True by done. simpl. lia.
Qed.

(** The loop against the predicate of the specification, on a store whose
    states all have a transition log. *)
Lemma cleanupOldTransactions_exact (m : Manager) (now maxAgeMs : Z) :
  map_Forall (λ _ state, transitions state ≠ []) (states m) →
  ∃ cleanedCount m',
    cleanupOldTransactions m now maxAgeMs = Ok cleanedCount m'
    ∧ (∀ transactionId state,
         states m' !! transactionId = Some state
         ↔ states m !! transactionId = Some state ∧ ¬ expired now maxAgeMs state)
    ∧ cleanedCount
      = Z.of_nat (size (filter (λ kv, expired now maxAgeMs kv.2) (states m)))
    ∧ cleanedCount = Z.of_nat (size (states m)) - Z.of_nat (size (states m'))
    ∧ (∀ transactionId state,
         states m !! transactionId = Some state →
         currentStatus state ≠ COMPLETED →
         states m' !! transactionId = Some state).
Proof.
  intros Hlogs.
  set (old := λ kv : string * TransactionState, expired now maxAgeMs kv.2).
  assert (Hall : Forall (λ kv, transitions kv.2 ≠ []) (map_to_list (states m))).
  { apply Forall_forall. intros [i st] Hin. apply elem_of_map_to_list in Hin.
    by apply (Hlogs i st). }
  pose proof (cleanup_loop_expired now maxAgeMs _ 0 m Hall) as Hloop.
  fold old in Hloop. rewrite Z.add_0_l in Hloop.
  set (left := foldl (λ acc kv, delete kv.1 acc) (states m)
                 (filter old (map_to_list (states m)))) in *.
  assert (Hleft : ∀ i st, left !! i = Some st ↔ states m !! i = Some st ∧ ¬ old (i, st)).
  { intros i st. unfold left. rewrite lookup_delete_all. case_decide as Hin.
    - split; [done|]. intros [Hst Hn]. exfalso. apply Hn.
      apply list_elem_of_fmap in Hin as ([i' st'] & -> & Hin).
      apply list_elem_of_filter in Hin as [Hold Hin].
      apply elem_of_map_to_list in Hin. simpl in *. congruence.
    - split; [|tauto]. intros Hst. split; [done|]. intros Hold. apply Hin.
      apply list_elem_of_fmap. exists (i, st). split; [done|].
      apply list_elem_of_filter. split; [done | by apply elem_of_map_to_list]. }
  assert (Hfilter : left = filter (λ kv, ¬ old kv) (states m)).
  { apply map_eq. intros i. apply option_eq. intros st.
    rewrite Hleft, map_lookup_filter_Some. tauto. }
  exists (Z.of_nat (length (filter old (map_to_list (states m))))).
  eexists. split; [|split; [|split; [|split]]].
  - unfold cleanupOldTransactions. rewrite Hloop. reflexivity.
  - intros i st.
    assert (Hs : ∀ m1 : Manager,
               states (if 0 <? Z.of_nat (length (filter old (map_to_list (states m))))
                       then saveStatesToStorage m1 else m1) = states m1)
      by (intros m1; by destruct (0 <? _)).
    rewrite Hs. simpl. apply Hleft.
  - by rewrite size_filter_to_list.
  - assert (Hs : states (if 0 <? Z.of_nat (length (filter old (map_to_list (states m))))
                         then saveStatesToStorage (set_states m left)
                         else set_states m left) = left)
      by (by destruct (0 <? _)).
    rewrite Hs, Hfilter, size_filter_to_list.
    pose proof (length_filter_split old (map_to_list (states m))) as Hsplit.
    rewrite <- (length_map_to_list (states m)). lia.
  - intros i st Hst Hnc.
    assert (Hs : ∀ m1 : Manager,
               states (if 0 <? Z.of_nat (length (filter old (map_to_list (states m))))
                       then saveStatesToStorage m1 else m1) = states m1)
      by (intros m1; by destruct (0 <? _)).
    rewrite Hs. simpl. apply Hleft. split; [done|]. intros [Hc _]. by apply Hnc.
Qed.

Lemma cleanup_loop_keeps now a i st (l : list (string * TransactionState)) :
  (∀ x, (i, x) ∈ l → currentStatus x ≠ COMPLETED) →
  ∀ acc,
    states (manager_of acc) !! i = Some st →
    states (manager_of (foldl (cleanup_step now a) acc l)) !! i = Some st.
Proof.
  induction l as [|[j x] l IH]; intros Hl acc Hacc; [done|].
  cbn [foldl]. apply IH.
  - intros y Hy. apply Hl. by right.
  - destruct acc as [n m0 | msg m0]; [|done]. unfold cleanup_step.
    destruct (decide (currentStatus x = COMPLETED)) as [Hc|]; [|done].
    destruct (last (transitions x)); [|done].
    destruct (_ >? _); [|done]. simpl in *.
    rewrite lookup_delete_ne; [done|].
    intros ->. by apply (Hl x); [left|].
Qed.

(** C8. [cleanupOldTransactions] never removes a state whose status is not
    COMPLETED (FAILED, INITIATED, or any status in flight), whatever its age
    and however the call ends. On a store whose states all have a
    transition log (as every reachable store has) the call returns
    normally; the states it leaves are exactly those of before that are not
    COMPLETED with a last transition older than [maxAgeMs]; and the number
    it returns is the number of states removed. *)
Theorem cleanupOldTransactions_spec (m : Manager) (now maxAgeMs : Z) :
  (∀ transactionId state,
     states m !! transactionId = Some state →
     currentStatus state ≠ COMPLETED →
     states (manager_of (cleanupOldTransactions m now maxAgeMs)) !! transactionId
     = Some state)
  ∧ (map_Forall (λ _ state, transitions state ≠ []) (states m) →
     ∃ cleanedCount m',
       cleanupOldTransactions m now maxAgeMs = Ok cleanedCount m'
       ∧ (∀ transactionId state,
            states m' !! transactionId = Some state
            ↔ states m !! transactionId = Some state ∧ ¬ expired now maxAgeMs state)
       ∧ cleanedCount
         = Z.of_nat (size (filter (λ kv, expired now maxAgeMs kv.2) (states m)))
       ∧ cleanedCount = Z.of_nat (size (states m)) - Z.of_nat (size (states m'))).
Proof.
  split.
  - intros i st Hst Hnc.
    assert (Hloop : states (manager_of
                      (foldl (cleanup_step now maxAgeMs) (Ok 0 m)
                         (map_to_list (states m)))) !! i = Some st).
    { apply cleanup_loop_keeps; [|done].
      intros x Hx. apply elem_of_map_to_list in Hx. congruence. }
    unfold cleanupOldTransactions.
    destruct (foldl _ _ _) as [n m' | msg m']; simpl in *; [|done].
    by destruct (0 <? n).
  - intros Hlogs.
    destruct (cleanupOldTransactions_exact m now maxAgeMs Hlogs)
      as (n & m' & Hrun & Hiff & Hn & Hsize & _).
    by exists n, m'.
Qed.

(** ** The properties on the sample histories *)

Lemma retryTransaction_spec_witness :
  ∃ m', retryTransaction failed_manager 7000 "tx-1" None = (Some 5000, Ok true m')
        ∧ getCurrentStatus m' "tx-1" = Some PENDING.
Proof.
  edestruct (proj1 (proj2 (proj2 (retryTransaction_spec failed_manager 7000 "tx-1"
                                    None))))
    as (m' & state' & Hrun & Hst & Hcount & Hcur & _).
  - vm_compute. reflexivity.
  - vm_compute. reflexivity.
  - vm_compute. reflexivity.
  - vm_compute. discriminate.
  - vm_compute. left. reflexivity.
  - exists m'. split.
    + rewrite Hrun, Hcount. vm_compute. reflexivity.
    + unfold getCurrentStatus. rewrite Hst. simpl. by rewrite Hcur.
Defined.

(** Two calls of [retryTransaction] on the same FAILED state that overlap:
    both raise the retry count and suspend; the one whose delay passes
    first moves the state to PENDING and returns [true]; the other then
    finds PENDING, returns [false], and its attempt is spent. *)
Example retryTransaction_overlapping_calls :
  ∃ first_suspended both_suspended first_resumed,
    retryTransaction_begin failed_manager "tx-1" = RetryAwaits 5000 1 first_suspended
    ∧ getCurrentStatus first_suspended "tx-1" = Some FAILED
    ∧ retryTransaction_begin first_suspended "tx-1"
      = RetryAwaits 10000 2 both_suspended
    ∧ retryTransaction_resume both_suspended 6020 "tx-1" None 2
      = Ok true first_resumed
    ∧ retryTransaction_resume first_resumed 11020 "tx-1" None 2
      = Ok false first_resumed
    ∧ getCurrentStatus first_resumed "tx-1" = Some PENDING
    ∧ retryCount <$> states first_resumed !! "tx-1" = Some 2.
Proof.
  do 3 eexists. split; [vm_compute; reflexivity|].
  split; [vm_compute; reflexivity|].
  split; [vm_compute; reflexivity|].
  split; [vm_compute; reflexivity|].
  split; [vm_compute; reflexivity|].
  split; vm_compute; reflexivity.
Qed.

Lemma reachable_log_invariant_witness :
  ∃ state,
    states retried_manager !! "tx-1" = Some state
    ∧ transitions state ≠ []
    ∧ (∃ t, last (transitions state) = Some t ∧ to t = currentStatus state)
    ∧ (∀ (i : nat) a b,
         transitions state !! i = Some a →
         transitions state !! S i = Some b →
         from b = to a).
Proof.
  eexists. split; [vm_compute; reflexivity|].
  apply (reachable_log_invariant noOverrides retried_manager "tx-1").
  - apply reachable_run, reachable_new.
  - vm_compute. reflexivity.
Defined.

Lemma transitionTo_rejection_witness :
  transitionTo retried_manager 8000 "tx-1" COMPLETED None = Ok false retried_manager
  ∧ transitionTo retried_manager 8000 "tx-9" PENDING None
    = Throw "Transaction state not found: tx-9" retried_manager.
Proof.
  split.
  - eapply (proj1 (proj2 (transitionTo_rejection retried_manager 8000 "tx-1"
                            COMPLETED None))).
    + vm_compute. reflexivity.
    + vm_compute. reflexivity.
  - apply (proj1 (transitionTo_rejection retried_manager 8000 "tx-9" PENDING None)).
    vm_compute. reflexivity.
Defined.

Lemma markAsFailed_ignores_terminal_witness :
  ∃ m',
    getCurrentStatus completed_manager "tx-1" = Some COMPLETED
    ∧ markAsFailed completed_manager 9000 "tx-1" "late error" None = Ok tt m'
    ∧ getCurrentStatus m' "tx-1" = Some FAILED.
Proof.
  edestruct (markAsFailed_ignores_terminal completed_manager 9000 "tx-1"
               "late error" None)
    as (_ & m' & state' & Hrun & Hst & Hcur & _).
  - vm_compute. reflexivity.
  - left. vm_compute. reflexivity.
  - exists m'. split; [vm_compute; reflexivity | split; [exact Hrun|]].
    unfold getCurrentStatus. rewrite Hst. simpl. by rewrite Hcur.
Defined.

Lemma retryTransaction_pending_burns_attempt_witness :
  ∃ m',
    retryTransaction retried_manager 20000 "tx-1" None = (Some 10000, Ok false m')
    ∧ getCurrentStatus m' "tx-1" = Some PENDING
    ∧ (retryCount <$> states retried_manager !! "tx-1") = Some 1
    ∧ (retryCount <$> states m' !! "tx-1") = Some 2.
Proof.
  edestruct (retryTransaction_pending_burns_attempt retried_manager 20000 "tx-1" None)
    as (_ & _ & Hrun & _).
  - vm_compute. reflexivity.
  - vm_compute. reflexivity.
  - vm_compute. reflexivity.
  - vm_compute. right. left. reflexivity.
  - eexists. split; [|split; [|split]].
    + rewrite Hrun. vm_compute. reflexivity.
    + vm_compute. reflexivity.
    + vm_compute. reflexivity.
    + vm_compute. reflexivity.
Defined.

Lemma cleanupOldTransactions_spec_witness :
  ∃ m',
    cleanupOldTransactions completed_manager (1060 + 8 * 86400000) defaultMaxAgeMs
    = Ok 1 m'
    ∧ getCurrentStatus completed_manager "tx-1" = Some COMPLETED
    ∧ states m' !! "tx-1" = None
    ∧ getCurrentStatus m' "tx-2" = Some FAILED.
Proof.
  destruct (cleanupOldTransactions_spec completed_manager (1060 + 8 * 86400000)
              defaultMaxAgeMs) as [Hkeep Hexact].
  destruct Hexact as (n & m' & Hrun & Hiff & Hn & _).
  - intros i st Hst.
    apply (wf_nonempty st).
    apply (reachable_all_wf noOverrides completed_manager
             (reachable_run _ _ _ (reachable_new _)) i st Hst).
  - exists m'. split; [|split; [|split]].
    + rewrite Hrun, Hn. vm_compute. reflexivity.
    + vm_compute. reflexivity.
    + destruct (states m' !! "tx-1") as [st|] eqn:E; [|done].
      apply Hiff in E as [E Hyoung]. exfalso. apply Hyoung.
      vm_compute in E. injection E as <-. vm_compute. split; reflexivity.
    + unfold getCurrentStatus. rewrite Hrun in Hkeep. cbn [manager_of] in Hkeep.
      erewrite Hkeep; [ | vm_compute; reflexivity | ]; [reflexivity | simpl; discriminate].
Defined.

End TransactionManagerProofs.

Module PaymentServiceProofs.
Import PaymentService.
Open Scope list_scope.

(** ** The stored array *)

Lemma find_id_spec (i : string) (l : list StoredTransaction) t :
  List.find (λ t, bool_decide (id t = i)) l = Some t → id t = i.
Proof.
  intros H. apply find_some in H as [_ H]. by apply bool_decide_eq_true in H.
Qed.

(** Updating the first record of an id succeeds exactly when [find] finds
    one, and changes that record only. *)
Lemma update_first_find i f (l : list StoredTransaction) t :
  List.find (λ t, bool_decide (id t = i)) l = Some t →
  id (f t) = i →
  ∃ l', update_first i f l = Some l'
        ∧ List.find (λ t, bool_decide (id t = i)) l' = Some (f t)
        ∧ ∀ j, j ≠ i →
               List.find (λ t, bool_decide (id t = j)) l'
               = List.find (λ t, bool_decide (id t = j)) l.
Proof.
  intros Hfind Hid. induction l as [|x l IH]; simpl in *; [discriminate|].
  destruct (bool_decide (id x = i)) eqn:Hx.
  - injection Hfind as ->. eexists. split; [reflexivity|]. split.
    + simpl. by rewrite bool_decide_eq_true_2.
    + intros j Hj. simpl. apply bool_decide_eq_true in Hx.
      rewrite !bool_decide_eq_false_2; congruence.
  - destruct (IH Hfind) as (l' & Hup & Hf & Ho). rewrite Hup. simpl.
    eexists. split; [reflexivity|]. split.
    + simpl. by rewrite Hx.
    + intros j Hj. simpl. destruct (bool_decide (id x = j)); [done | by apply Ho].
Qed.

Lemma update_first_none i f (l : list StoredTransaction) :
  List.find (λ t, bool_decide (id t = i)) l = None → update_first i f l = None.
Proof.
  induction l as [|x l IH]; simpl; [done|].
  destruct (bool_decide (id x = i)); [discriminate|].
  intros H. by rewrite IH.
Qed.

Lemma find_snoc_fresh i (l : list StoredTransaction) t :
  List.find (λ t, bool_decide (id t = i)) l = None →
  id t = i →
  List.find (λ t, bool_decide (id t = i)) (l ++ [t]) = Some t.
Proof.
  intros Hnone Hid. induction l as [|x l IH]; simpl in *.
  - by rewrite bool_decide_eq_true_2.
  - destruct (bool_decide (id x = i)); [discriminate | by apply IH].
Qed.

Lemma find_snoc_other j (l : list StoredTransaction) t :
  id t ≠ j →
  List.find (λ t, bool_decide (id t = j)) (l ++ [t])
  = List.find (λ t, bool_decide (id t = j)) l.
Proof.
  intros Hid. induction l as [|x l IH]; simpl.
  - by rewrite bool_decide_eq_false_2.
  - by destruct (bool_decide (id x = j)).
Qed.

Lemma updateTransactionStatus_found s now i st t :
  getStoredTransaction s i = Some t →
  getStoredTransaction (updateTransactionStatus s now i st) i
  = Some (with_status t st now)
  ∧ ∀ j, j ≠ i →
         getStoredTransaction (updateTransactionStatus s now i st) j
         = getStoredTransaction s j.
Proof.
  unfold getStoredTransaction, updateTransactionStatus. intros Hfind.
  destruct (update_first_find i (λ t, with_status t st now) _ t Hfind)
    as (l' & -> & Hf & Ho).
  - simpl. by eapply find_id_spec.
  - by split.
Qed.

(** ** [cancelPayment] *)

(** C5. On a stored transaction, [cancelPayment] returns [true] exactly
    when the stored status is INITIATED, PENDING or ON_RAMPING, and then the
    record reads FAILED afterwards (no other record is touched); for every
    other status it returns [false] and the storage entry is the same as
    before. *)
Theorem cancelPayment_spec (s : Storage) (now : Z) (i : string)
    (transaction : StoredTransaction) :
  getStoredTransaction s i = Some transaction →
  ∃ cancelled s',
    cancelPayment s now i = Ok cancelled s'
    ∧ (cancelled = true ↔ In (status transaction) [INITIATED; PENDING; ON_RAMPING])
    ∧ (cancelled = true →
       getStoredTransaction s' i = Some (with_status transaction FAILED now)
       ∧ status (with_status transaction FAILED now) = FAILED
       ∧ ∀ j, j ≠ i → getStoredTransaction s' j = getStoredTransaction s j)
    ∧ (cancelled = false →
       s' = s ∧ status <$> getStoredTransaction s' i = Some (status transaction)).
Proof.
  intros Hfind. unfold cancelPayment. rewrite Hfind.
  destruct (includes _ (status transaction)) eqn:Hinc.
  - do 2 eexists. split; [reflexivity|].
    split; [by rewrite <- includes_In|].
    split; [|discriminate]. intros _.
    destruct (updateTransactionStatus_found s now i FAILED transaction Hfind)
      as [Hi Ho].
    by repeat split.
  - do 2 eexists. split; [reflexivity|].
    split; [rewrite <- includes_In; by rewrite Hinc|].
    split; [discriminate|]. intros _. split; [done|]. by rewrite Hfind.
Qed.

Lemma storeTransaction_lookup s now transaction :
  getStoredTransaction (storeTransaction s now transaction) (tx_id transaction)
  = Some (stored_of transaction now)
  ∧ ∀ j, j ≠ tx_id transaction →
         getStoredTransaction (storeTransaction s now transaction) j
         = getStoredTransaction s j.
Proof.
  unfold getStoredTransaction, storeTransaction.
  destruct (List.find (λ t, bool_decide (id t = tx_id transaction))
              (getStoredTransactions s)) as [t|] eqn:Hfind.
  - destruct (update_first_find (tx_id transaction)
                (λ _, stored_of transaction now) _ t Hfind eq_refl)
      as (l' & -> & Hf & Ho).
    by split.
  - rewrite (update_first_none _ _ _ Hfind). simpl. split.
    + by apply find_snoc_fresh.
    + intros j Hj. apply find_snoc_other. simpl. congruence.
Qed.

Lemma processPayment_start_lookup s now i t :
  getStoredTransaction s i = Some t →
  getStoredTransaction (processPayment_start s now i) i
  = Some (with_status (with_status t PENDING now) ON_RAMPING now)
  ∧ ∀ j, j ≠ i →
         getStoredTransaction (processPayment_start s now i) j
         = getStoredTransaction s j.
Proof.
  intros Hfind. unfold processPayment_start.
  destruct (updateTransactionStatus_found s now i PENDING t Hfind) as [H1 O1].
  destruct (updateTransactionStatus_found _ now i ON_RAMPING _ H1) as [H2 O2].
  split; [done|]. intros j Hj. by rewrite O2, O1.
Qed.

(** ** Identifiers *)

Lemma digits_no_underscore d : has_char "_" (NilEmpty.string_of_uint d) = false.
Proof. induction d; simpl; auto. Qed.

Lemma show_no_underscore z : has_char "_" (show z) = false.
Proof.
  unfold show, NilZero.string_of_int, NilZero.string_of_uint.
  destruct (Z.to_int z) as [d|d]; destruct d; simpl;
    try reflexivity; apply digits_no_underscore.
Qed.

Lemma show_inj z1 z2 : show z1 = show z2 → z1 = z2.
Proof.
  unfold show. intros H. apply DecimalZ.to_int_inj.
  assert (Hnn : ∀ z, Z.to_int z ≠ Decimal.Pos Decimal.Nil
                     ∧ Z.to_int z ≠ Decimal.Neg Decimal.Nil).
  { intros [|p|p]; simpl; split; try discriminate;
      intros E; injection E; apply DecimalPos.Unsigned.to_uint_nonnil. }
  destruct (Hnn z1) as [A1 B1]. destruct (Hnn z2) as [A2 B2].
  pose proof (NilZero.isi _ A1 B1) as E1. pose proof (NilZero.isi _ A2 B2) as E2.
  rewrite H in E1. congruence.
Qed.

(** A text is cut in one way only at its first underscore. *)
Lemma split_at_underscore (a c b d : string) :
  has_char "_" a = false → has_char "_" c = false →
  (a ++ String "_" b)%string = (c ++ String "_" d)%string →
  a = c ∧ b = d.
Proof.
  revert c. induction a as [|x a IH]; intros [|y c] Ha Hc H; simpl in *.
  - by injection H as ->.
  - injection H as <- _. apply orb_false_iff in Hc as [Hy _]. discriminate Hy.
  - injection H as -> _. apply orb_false_iff in Ha as [Hx _]. discriminate Hx.
  - injection H as -> H.
    apply orb_false_iff in Ha as [_ Ha]. apply orb_false_iff in Hc as [_ Hc].
    destruct (IH c Ha Hc H) as [-> ->]. done.
Qed.

(** Two identifiers are equal only if minted from the same clock reading
    and the same random characters. *)
Lemma generateTransactionId_inj e1 e2 :
  generateTransactionId e1 = generateTransactionId e2 →
  dateNow e1 = dateNow e2 ∧ mathRandom e1 = mathRandom e2.
Proof.
  unfold generateTransactionId. intros H. simpl in H.
  injection H as H.
  apply split_at_underscore in H as [Hs Hr]; try apply show_no_underscore.
  split; [by apply show_inj | done].
Qed.

(** ** Every record the service stores carries a validated payment *)

Section StoredRecords.

Variable validateAddress : string → bool.

Lemma update_first_Forall (P : StoredTransaction → Prop) i f l l' :
  (∀ t, P t → P (f t)) → Forall P l → update_first i f l = Some l' → Forall P l'.
Proof.
  intros Hf. revert l'. induction l as [|x l IH]; intros l' Hall Hup; simpl in *.
  - discriminate.
  - apply Forall_cons in Hall as [Hx Hall].
    destruct (bool_decide (id x = i)).
    + injection Hup as <-. apply Forall_cons. auto.
    + destruct (update_first i f l) as [l0|]; [|discriminate].
      injection Hup as <-. apply Forall_cons. auto.
Qed.

Lemma all_well_formed_updateTransactionStatus s now i st :
  all_well_formed validateAddress s →
  all_well_formed validateAddress (updateTransactionStatus s now i st).
Proof.
  unfold all_well_formed, updateTransactionStatus. intros H.
  destruct (update_first _ _ _) as [l'|] eqn:Hup; [|done].
  simpl. eapply update_first_Forall; [|exact H|exact Hup]. by intros t.
Qed.

Lemma all_well_formed_updateTransactionField s now i f v :
  all_well_formed validateAddress s →
  all_well_formed validateAddress (updateTransactionField s now i f v).
Proof.
  unfold all_well_formed, updateTransactionField. intros H.
  destruct (update_first _ _ _) as [l'|] eqn:Hup; [|done].
  simpl. eapply update_first_Forall; [|exact H|exact Hup]. by intros t.
Qed.

Lemma all_well_formed_initiatePayment e s request :
  all_well_formed validateAddress s →
  all_well_formed validateAddress
    (storage_of (initiatePayment validateAddress e s request)).
Proof.
  intros H. unfold initiatePayment.
  destruct (validatePaymentRequest validateAddress request) eqn:Hv; [done|].
  simpl. unfold processPayment_start.
  do 2 apply all_well_formed_updateTransactionStatus.
  unfold all_well_formed, storeTransaction in *.
  assert (Hnew : ∀ transaction now,
             tx_amount transaction = amount request →
             tx_currency transaction = currency request →
             tx_recipient transaction = recipientAddress request →
             well_formed validateAddress (stored_of transaction now)).
  { intros transaction now Ha Hc Hr.
    unfold well_formed, validatePaymentRequest in *. simpl.
    by rewrite Ha, Hc, Hr. }
  destruct (update_first _ _ _) as [l'|] eqn:Hup; simpl.
  - eapply update_first_Forall; [|exact H|exact Hup]. intros t Ht. by apply Hnew.
  - apply Forall_app. split; [done|]. apply Forall_cons. split; [by apply Hnew | done].
Qed.

Lemma all_well_formed_perform s a :
  all_well_formed validateAddress s →
  all_well_formed validateAddress (perform validateAddress s a).
Proof.
  intros H. destruct a as [e request|now i|e i|now i st|now i f v|]; simpl.
  - by apply all_well_formed_initiatePayment.
  - unfold cancelPayment. destruct (getStoredTransaction s i); [|done].
    destruct (includes _ _); [|done]. by apply all_well_formed_updateTransactionStatus.
  - unfold retryPayment. destruct (getStoredTransaction s i); [|done].
    destruct (negb _); [done|]. by apply all_well_formed_initiatePayment.
  - by apply all_well_formed_updateTransactionStatus.
  - by apply all_well_formed_updateTransactionField.
  - apply Forall_nil_2.
Qed.

(** In a storage entry the service built, every record found under an id
    passes the request validation again. *)
Lemma built_well_formed s i stored :
  built validateAddress s →
  getStoredTransaction s i = Some stored →
  well_formed validateAddress stored.
Proof.
  intros Hb Hfind.
  assert (Hall : all_well_formed validateAddress s).
  { clear Hfind. induction Hb; [apply Forall_nil_2 | by apply all_well_formed_perform]. }
  apply find_some in Hfind as [Hin _].
  unfold all_well_formed in Hall. rewrite Forall_forall in Hall.
  apply Hall. by apply list_elem_of_In.
Qed.

End StoredRecords.

(** ** [initiatePayment] and [retryPayment] *)

Section WithClient.

Variable validateAddress : string → bool.

Lemma validatePaymentRequest_messages request msg :
  validatePaymentRequest validateAddress request = Some msg →
  In msg validationMessages.
Proof.
  unfold validatePaymentRequest, validationMessages.
  repeat (destruct (_ : bool); [intros [= <-]; simpl; tauto|]).
  discriminate.
Qed.

Lemma initiatePayment_valid e s request :
  validatePaymentRequest validateAddress request = None →
  initiatePayment validateAddress e s request
  = Ok {| tx_id := generateTransactionId e;
          tx_timestamp := dateNow e;
          tx_amount := amount request;
          tx_currency := currency request;
          tx_recipient := recipientAddress request;
          tx_status := INITIATED;
          tx_fees := calculatedFees e;
          tx_txHash := None |}
       (processPayment_start
          (storeTransaction s (dateNow e)
             {| tx_id := generateTransactionId e;
                tx_timestamp := dateNow e;
                tx_amount := amount request;
                tx_currency := currency request;
                tx_recipient := recipientAddress request;
                tx_status := INITIATED;
                tx_fees := calculatedFees e;
                tx_txHash := None |})
          (dateNow e) (generateTransactionId e)).
Proof. intros H. unfold initiatePayment. by rewrite H. Qed.

(** C7, as the code has it. A request whose amount is not positive, or
    whose currency or recipient address is missing (the empty string), or
    whose recipient address the blockchain client rejects, makes the call of
    [initiatePayment] return a promise that is already rejected with the
    validation error: the method is [async], so nothing is thrown to its
    caller (the [throw] of [validatePaymentRequest] itself does reach its
    caller, the method body). The rejection is decided before the fee
    calculator is called, and the storage entry is the one of before: no
    record was created or written. The message is the one of the first
    check that fails, in the order amount, currency, recipient address,
    address format. *)
Theorem initiatePayment_rejects_invalid (e : Env) (s : Storage) (request : PaymentRequest) :
  (amount request <= 0)%Q
  ∨ currency request = ""
  ∨ recipientAddress request = ""
  ∨ validateAddress (recipientAddress request) = false →
  ∃ msg,
    initiatePayment_call validateAddress s request = (Returned (PromiseRejected msg), s)
    ∧ validatePaymentRequest_call validateAddress request = ThrowsToCaller msg
    ∧ initiatePayment validateAddress e s request = Throw msg s
    ∧ validatePaymentRequest validateAddress request = Some msg
    ∧ In msg validationMessages
    ∧ ((amount request <= 0)%Q → msg = "Invalid amount: must be greater than 0")
    ∧ ((0 < amount request)%Q → currency request = "" →
       msg = "Currency is required")
    ∧ ((0 < amount request)%Q → currency request ≠ "" →
       recipientAddress request = "" →
       msg = "Recipient address is required")
    ∧ ((0 < amount request)%Q → currency request ≠ "" →
       recipientAddress request ≠ "" →
       validateAddress (recipientAddress request) = false →
       msg = "Invalid recipient address format")
    ∧ storage_of (initiatePayment validateAddress e s request) = s.
Proof.
  intros Hbad.
  assert (Hv : ∃ msg,
             validatePaymentRequest validateAddress request = Some msg
             ∧ ((amount request <= 0)%Q →
                msg = "Invalid amount: must be greater than 0")
             ∧ ((0 < amount request)%Q → currency request = "" →
                msg = "Currency is required")
             ∧ ((0 < amount request)%Q → currency request ≠ "" →
                recipientAddress request = "" →
                msg = "Recipient address is required")
             ∧ ((0 < amount request)%Q → currency request ≠ "" →
                recipientAddress request ≠ "" →
                validateAddress (recipientAddress request) = false →
                msg = "Invalid recipient address format")).
  { unfold validatePaymentRequest.
    destruct (Qle_bool (amount request) 0) eqn:Hle.
    - rewrite orb_true_r. apply Qle_bool_iff in Hle.
      eexists. split; [reflexivity|]. split; [done|].
      split; [|split]; intros Hpos; destruct (Qlt_not_le _ _ Hpos Hle).
    - assert (Hpos : ¬ (amount request <= 0)%Q).
      { intros Hq. apply Qle_bool_iff in Hq. congruence. }
      destruct (Qeq_bool (amount request) 0) eqn:Heq.
      { exfalso. apply Hpos. apply Qeq_bool_iff in Heq.
        apply Qle_lteq. right. exact Heq. }
      simpl.
      destruct (bool_decide (currency request = "")) eqn:Hc.
      { apply bool_decide_eq_true in Hc.
        eexists. split; [reflexivity|]. split; [by intros Hq|].
        split; [done|]. split; by intros _ Hne. }
      apply bool_decide_eq_false in Hc.
      destruct (bool_decide (recipientAddress request = "")) eqn:Hr.
      { apply bool_decide_eq_true in Hr.
        eexists. split; [reflexivity|]. split; [by intros Hq|].
        split; [by intros _ Hempty|]. split; [done|]. by intros _ _ Hne. }
      apply bool_decide_eq_false in Hr.
      destruct (validateAddress (recipientAddress request)) eqn:Ha; simpl.
      { destruct Hbad as [Hq|[Hempty|[Hempty|Hfalse]]];
          [by destruct (Hpos Hq) | by destruct (Hc Hempty)
           | by destruct (Hr Hempty) | discriminate Hfalse]. }
      eexists. split; [reflexivity|]. split; [by intros Hq|].
      split; [by intros _ Hempty|]. split; [by intros _ _ Hempty|]. done. }
  destruct Hv as (msg & Hmsg & Hamount & Hcurrency & Hrecipient & Hformat).
  exists msg.
  assert (Hrun : initiatePayment validateAddress e s request = Throw msg s)
    by (unfold initiatePayment; by rewrite Hmsg).
  split.
  { unfold initiatePayment_call, initiatePayment_body, validatePaymentRequest_call.
    by rewrite Hmsg. }
  split; [unfold validatePaymentRequest_call; by rewrite Hmsg|].
  split; [exact Hrun|]. split; [exact Hmsg|].
  split; [by eapply validatePaymentRequest_messages|].
  split; [exact Hamount|]. split; [exact Hcurrency|].
  split; [exact Hrecipient|]. split; [exact Hformat|].
  by rewrite Hrun.
Qed.

(** A request that passes the validation leaves the promise pending on
    the fee calculator, called with the amount and the currency of the
    request. *)
Lemma initiatePayment_call_valid (s : Storage) (request : PaymentRequest) :
  validatePaymentRequest validateAddress request = None →
  initiatePayment_call validateAddress s request
  = (Returned (PromisePending (CalculateFees (amount request) (currency request))), s).
Proof.
  intros Hv.
  unfold initiatePayment_call, initiatePayment_body, validatePaymentRequest_call.
  by rewrite Hv.
Qed.


End WithClient.

(** ** The properties on the sample run *)

Lemma cancelPayment_spec_witness :
  ∃ s',
    status <$> getStoredTransaction initiated_storage first_id = Some ON_RAMPING
    ∧ cancelPayment initiated_storage 1700000001000 first_id = Ok true s'
    ∧ status <$> getStoredTransaction s' first_id = Some FAILED.
Proof.
  edestruct (cancelPayment_spec initiated_storage 1700000001000 first_id)
    as (cancelled & s' & Hrun & Hiff & Htrue & _).
  - vm_compute. reflexivity.
  - assert (Hc : cancelled = true)
      by (apply Hiff; vm_compute; right; right; left; reflexivity).
    subst cancelled. destruct (Htrue eq_refl) as (Hnew & _ & _).
    exists s'. split; [vm_compute; reflexivity|]. split; [exact Hrun|].
    rewrite Hnew. reflexivity.
Defined.

Lemma initiatePayment_rejects_invalid_witness :
  initiatePayment_call MockBlockchainService.validateAddress initiated_storage
    {| amount := 50; currency := "";
       recipientAddress := "0x742d35Cc6634C0532925a3b8D4C9db96C4b4d8b6";
       recipientENS := None |}
  = (Returned (PromiseRejected "Currency is required"), initiated_storage).
Proof.
  destruct (initiatePayment_rejects_invalid MockBlockchainService.validateAddress
              first_env initiated_storage
              {| amount := 50; currency := "";
                 recipientAddress := "0x742d35Cc6634C0532925a3b8D4C9db96C4b4d8b6";
                 recipientENS := None |})
    as (msg & Hcall & _ & _ & _ & _ & _ & Hcurrency & _).
  - right. left. reflexivity.
  - rewrite Hcall, Hcurrency; [reflexivity | | reflexivity].
    vm_compute. reflexivity.
Defined.

(** C7 as it was stated fails on the request of its own scenario: with
    amount 0 the call does not throw to its caller, it returns a promise,
    rejected with the validation error; the storage entry is untouched. *)
Lemma initiatePayment_zero_amount_returns_rejected_promise :
  fst (initiatePayment_call MockBlockchainService.validateAddress initiated_storage
         {| amount := 0; currency := "USD";
            recipientAddress := "0x742d35Cc6634C0532925a3b8D4C9db96C4b4d8b6";
            recipientENS := None |})
  = Returned (PromiseRejected "Invalid amount: must be greater than 0")
  ∧ snd (initiatePayment_call MockBlockchainService.validateAddress initiated_storage
           {| amount := 0; currency := "USD";
              recipientAddress := "0x742d35Cc6634C0532925a3b8D4C9db96C4b4d8b6";
              recipientENS := None |})
    = initiated_storage
  ∧ validatePaymentRequest_call MockBlockchainService.validateAddress
      {| amount := 0; currency := "USD";
         recipientAddress := "0x742d35Cc6634C0532925a3b8D4C9db96C4b4d8b6";
         recipientENS := None |}
    = ThrowsToCaller "Invalid amount: must be greater than 0".
Proof. split; [|split]; reflexivity. Qed.



End PaymentServiceProofs.

(** * Further properties of the transaction manager *)
Module TransactionManagerExtras.
Import TransactionManager TransactionManagerProofs.
Open Scope Z_scope.
Open Scope list_scope.

(** ** Walks along the table *)

Lemma transitionTo_valid m now i s r st :
  states m !! i = Some st →
  isValidTransition (currentStatus st) s = true →
  ∃ m' st',
    transitionTo m now i s r = Ok true m'
    ∧ states m' !! i = Some st'
    ∧ currentStatus st' = s
    ∧ transitions st'
      = transitions st
        ++ [{| from := currentStatus st; to := s; timestamp := now;
               reason := r; error := None |}].
Proof.
  intros Hst Hv. unfold transitionTo. rewrite Hst, Hv. simpl.
  do 2 eexists. split; [reflexivity|]. split; [apply lookup_insert_eq|]. by simpl.
Qed.

Lemma last_cons_default {A} (l : list A) x d1 d2 :
  List.last (x :: l) d1 = List.last (x :: l) d2.
Proof.
  revert x. induction l as [|y l IH]; intros x; [done|].
  change (List.last (y :: l) d1 = List.last (y :: l) d2). apply IH.
Qed.

Lemma transitionAlong_valid path :
  ∀ m now i st,
    states m !! i = Some st →
    validPath (currentStatus st) path = true →
    ∃ m' st' added,
      transitionAlong m now i path = (map (λ _, true) path, m')
      ∧ states m' !! i = Some st'
      ∧ currentStatus st' = List.last path (currentStatus st)
      ∧ transitions st' = transitions st ++ added
      ∧ map to added = path
      ∧ map from added = take (length path) (currentStatus st :: path).
Proof.
  induction path as [|s path IH]; intros m now i st Hst Hpath.
  - exists m, st, []. simpl. by rewrite app_nil_r.
  - simpl in Hpath. apply andb_true_iff in Hpath as [Hv Hrest].
    destruct (transitionTo_valid m now i s None st Hst Hv)
      as (m1 & st1 & Hrun & Hst1 & Hcur1 & Hlog1).
    rewrite <- Hcur1 in Hrest.
    destruct (IH m1 (now + 1) i st1 Hst1 Hrest)
      as (m' & st' & added & Hrun' & Hst' & Hcur' & Hlog' & Hto & Hfrom).
    exists m', st'. eexists (_ :: added).
    split; [cbn [transitionAlong]; by rewrite Hrun, Hrun'|].
    split; [done|]. split.
    + rewrite Hcur', Hcur1. destruct path as [|s' path]; [done|].
      change (List.last (s :: s' :: path) (currentStatus st))
        with (List.last (s' :: path) (currentStatus st)).
      apply last_cons_default.
    + split; [by rewrite Hlog', Hlog1, <- app_assoc|].
      split; [simpl; by rewrite Hto|].
      simpl. by rewrite Hfrom, Hcur1.
Qed.

(** X1. Calling [transitionTo] along any path the table allows from the
    current status succeeds at every step; the state then sits at the last
    status of the path, and its log has grown by one entry per step, each
    entry going from the status before to the status asked for. *)
Theorem transitionAlong_valid_path (m : Manager) (now : Z) (transactionId : string)
    (state : TransactionState) (path : list TransactionStatus) :
  states m !! transactionId = Some state →
  validPath (currentStatus state) path = true →
  ∃ m' state' added,
    transitionAlong m now transactionId path = (map (λ _, true) path, m')
    ∧ states m' !! transactionId = Some state'
    ∧ currentStatus state' = List.last path (currentStatus state)
    ∧ transitions state' = transitions state ++ added
    ∧ length (transitions state') = (length (transitions state) + length path)%nat
    ∧ map to added = path
    ∧ map from added = take (length path) (currentStatus state :: path).
Proof.
  intros Hst Hpath.
  destruct (transitionAlong_valid path m now transactionId state Hst Hpath)
    as (m' & st' & added & Hrun & Hst' & Hcur & Hlog & Hto & Hfrom).
  exists m', st', added. repeat (split; [done|]).
  split; [|done]. rewrite Hlog, length_app. f_equal. by rewrite <- Hto, length_map.
Qed.

Lemma transitionAlong_valid_path_witness :
  ∃ m',
    transitionAlong (snd (initializeTransaction (new noOverrides None) 1000 "tx-1"
                            INITIATED))
      1001 "tx-1" pipelineSteps
    = ([true; true; true; true; true; true], m')
    ∧ getCurrentStatus m' "tx-1" = Some COMPLETED
    ∧ length (getTransactionHistory m' "tx-1") = 7%nat.
Proof.
  edestruct transitionAlong_valid_path
    with (m := snd (initializeTransaction (new noOverrides None) 1000 "tx-1" INITIATED))
         (now := 1001) (transactionId := "tx-1") (path := pipelineSteps)
    as (m' & st' & added & Hrun & Hst & Hcur & _ & Hlen & _).
  - vm_compute. reflexivity.
  - vm_compute. reflexivity.
  - exists m'. split; [exact Hrun|]. split.
    + unfold getCurrentStatus. rewrite Hst. simpl. by rewrite Hcur.
    + unfold getTransactionHistory. rewrite Hst. exact Hlen.
Defined.

(** ** COMPLETED under the table *)

Lemma transitionTo_keeps_completed m now j s r i st :
  states m !! i = Some st →
  currentStatus st = COMPLETED →
  states (manager_of (transitionTo m now j s r)) !! i = Some st.
Proof.
  intros Hst Hc. unfold transitionTo.
  destruct (states m !! j) as [st'|] eqn:Hj; [|done].
  destruct (isValidTransition (currentStatus st') s) eqn:Hv; simpl; [|done].
  rewrite lookup_insert_ne; [done|].
  intros <-. rewrite Hst in Hj. injection Hj as <-. rewrite Hc in Hv. discriminate.
Qed.

(** X2. No sequence of [transitionTo] calls (direct, or as the last part of
    a retry), on whatever ids and to whatever statuses, changes a state
    that is COMPLETED: it stays stored exactly as it is. *)
Theorem completed_is_absorbing (m : Manager) (calls : list (Z * call))
    (transactionId : string) (state : TransactionState) :
  states m !! transactionId = Some state →
  currentStatus state = COMPLETED →
  Forall (λ tc, usesTable (snd tc)) calls →
  states (run m calls) !! transactionId = Some state.
Proof.
  intros Hst Hc Hcalls. revert m Hst.
  induction Hcalls as [|[now c] calls Hc1 _ IH]; intros m Hst; [done|].
  cbn [run foldl]. apply IH. simpl.
  destruct c; simpl in Hc1; try contradiction.
  - by apply transitionTo_keeps_completed.
  - by apply transitionTo_keeps_completed.
Qed.

Lemma completed_is_absorbing_witness :
  getCurrentStatus
    (run completed_manager
       [(2000, CallTransitionTo "tx-1" PENDING None);
        (2001, CallTransitionTo "tx-1" FAILED None);
        (2002, CallRetryResume "tx-1" None 1);
        (2003, CallTransitionTo "tx-2" PENDING None)])
    "tx-1"
  = Some COMPLETED.
Proof.
  unfold getCurrentStatus.
  erewrite (completed_is_absorbing completed_manager _ "tx-1"); cycle 1.
  - vm_compute. reflexivity.
  - reflexivity.
  - repeat constructor.
  - reflexivity.
Defined.

(** ** Bookkeeping kept by every call *)

Section Bookkeeping.

Variable cfg : RetryConfig.

Lemma entry_wf_same k st st' :
  entry_wf cfg k st →
  id st' = id st → retryCount st' = retryCount st → maxRetries st' = maxRetries st →
  entry_wf cfg k st'.
Proof.
  intros [Hid [H1 H2 H3]] Ei Er Em. split; [congruence|].
  split; rewrite ?Er, ?Em; done.
Qed.

Lemma entries_wf_insert m k st :
  entries_wf cfg m → entry_wf cfg k st →
  entries_wf cfg (set_states m (<[k := st]> (states m))).
Proof. intros [Hc Hs] Hst. split; [done|]. simpl. by apply map_Forall_insert_2. Qed.

Lemma entries_wf_saved m : entries_wf cfg m → entries_wf cfg (saveStatesToStorage m).
Proof. by intros [Hc Hs]. Qed.

Lemma entries_wf_notified m i a b :
  entries_wf cfg m → entries_wf cfg (notifyStatusChange m i a b).
Proof. by intros [Hc Hs]. Qed.

Lemma entries_wf_initializeTransaction m now i s :
  entries_wf cfg m → entries_wf cfg (snd (initializeTransaction m now i s)).
Proof.
  intros H. simpl. apply entries_wf_saved, entries_wf_insert; [done|].
  destruct H as [Hc _]. split; [done|]. split; simpl; [lia | lia | by rewrite Hc].
Qed.

Lemma entries_wf_transitionTo m now i s r :
  entries_wf cfg m → entries_wf cfg (manager_of (transitionTo m now i s r)).
Proof.
  intros H. unfold transitionTo.
  destruct (states m !! i) as [st|] eqn:Hst; [|done].
  destruct (negb _); [done|]. simpl.
  apply entries_wf_notified, entries_wf_saved, entries_wf_insert; [done|].
  eapply entry_wf_same; [by apply (proj2 H i st) | ..]; reflexivity.
Qed.

Lemma entries_wf_markAsFailed m now i e r :
  entries_wf cfg m → entries_wf cfg (manager_of (markAsFailed m now i e r)).
Proof.
  intros H. unfold markAsFailed.
  destruct (states m !! i) as [st|] eqn:Hst; [|done]. simpl.
  apply entries_wf_notified, entries_wf_saved, entries_wf_insert; [done|].
  eapply entry_wf_same; [by apply (proj2 H i st) | ..]; reflexivity.
Qed.

Lemma entries_wf_setMetadata m i k v :
  entries_wf cfg m → entries_wf cfg (manager_of (setMetadata m i k v)).
Proof.
  intros H. unfold setMetadata.
  destruct (states m !! i) as [st|] eqn:Hst; [|done]. simpl.
  apply entries_wf_saved, entries_wf_insert; [done|].
  eapply entry_wf_same; [by apply (proj2 H i st) | ..]; reflexivity.
Qed.

Lemma entries_wf_retry_begin m i :
  entries_wf cfg m →
  entries_wf cfg (match retryTransaction_begin m i with
                  | RetryAwaits _ _ m' => m'
                  | _ => m
                  end).
Proof.
  intros H. unfold retryTransaction_begin.
  destruct (states m !! i) as [st|] eqn:Hst; [|done].
  destruct (canRetry m i) eqn:Hcan; simpl; [|done].
  apply entries_wf_insert; [done|].
  destruct (proj2 H i st Hst) as [Hid [H1 H2 H3]].
  unfold canRetry in Hcan. rewrite Hst in Hcan.
  apply andb_true_iff in Hcan as [_ Hlt]. apply Z.ltb_lt in Hlt.
  split; [done|]. split; simpl; [lia | lia | done].
Qed.

Lemma entries_wf_retryTransaction m now i r :
  entries_wf cfg m → entries_wf cfg (manager_of (snd (retryTransaction m now i r))).
Proof.
  intros H. unfold retryTransaction.
  pose proof (entries_wf_retry_begin m i H) as Hb.
  destruct (retryTransaction_begin m i); simpl; try done.
  by apply entries_wf_transitionTo.
Qed.

Lemma entries_wf_cleanup_loop now a l acc :
  entries_wf cfg (manager_of acc) →
  entries_wf cfg (manager_of (foldl (cleanup_step now a) acc l)).
Proof.
  revert acc. induction l as [|[i st] l IH]; intros acc H; [done|].
  cbn [foldl]. apply IH.
  destruct acc as [n m | msg m]; [|done]. unfold cleanup_step.
  destruct (decide _); [|done]. destruct (last _); [|done].
  destruct (_ >? _); [|done]. simpl in *.
  destruct H as [Hc Hs]. split; [done|]. simpl. by apply map_Forall_delete.
Qed.

Lemma entries_wf_cleanupOldTransactions m now a :
  entries_wf cfg m → entries_wf cfg (manager_of (cleanupOldTransactions m now a)).
Proof.
  intros H. unfold cleanupOldTransactions.
  pose proof (entries_wf_cleanup_loop now a (map_to_list (states m)) (Ok 0 m) H) as Hl.
  destruct (foldl _ _ _) as [n m' | msg m']; simpl in *; [|done].
  destruct (0 <? n); [by apply entries_wf_saved | done].
Qed.

Lemma entries_wf_after m now c : entries_wf cfg m → entries_wf cfg (after m now c).
Proof.
  intros H. destruct c; unfold after.
  - by apply entries_wf_initializeTransaction.
  - by apply entries_wf_transitionTo.
  - by apply entries_wf_markAsFailed.
  - by apply entries_wf_retryTransaction.
  - by apply entries_wf_retry_begin.
  - by apply entries_wf_transitionTo.
  - by apply entries_wf_setMetadata.
  - by apply entries_wf_cleanupOldTransactions.
Qed.

End Bookkeeping.

Lemma reachable_entries_wf p m : reachable p m → entries_wf (mergeConfig p) m.
Proof.
  induction 1; [|by apply entries_wf_after].
  split; [done|]. simpl. apply map_Forall_empty.
Qed.

(** X3. In every manager reached from a fresh one, whatever the calls and
    however retries interleave with them, the retry count of a stored state
    is at least zero and at most its retry limit (or zero, for a negative
    limit), and that limit is the [maxRetries] the manager was configured
    with: no transaction is ever granted more retries than configured. *)
Theorem retry_budget_respected (p : PartialRetryConfig) (m : Manager)
    (transactionId : string) (state : TransactionState) :
  reachable p m →
  states m !! transactionId = Some state →
  0 ≤ retryCount state
  ∧ retryCount state ≤ Z.max 0 (cfg_maxRetries (mergeConfig p))
  ∧ maxRetries state = cfg_maxRetries (mergeConfig p)
  ∧ (retryCount state = Z.max 0 (cfg_maxRetries (mergeConfig p)) →
     canRetry m transactionId = false).
Proof.
  intros Hr Hst.
  destruct (reachable_entries_wf p m Hr) as [Hc Hs].
  destruct (Hs transactionId state Hst) as [_ [H1 H2 H3]].
  rewrite H3 in H2. repeat (split; [done|]).
  intros Hmax. unfold canRetry. rewrite Hst.
  apply andb_false_iff. right. apply Z.ltb_ge. lia.
Qed.

Lemma retry_budget_respected_witness :
  ∃ state,
    states retried_manager !! "tx-1" = Some state
    ∧ 0 ≤ retryCount state
    ∧ retryCount state ≤ 3.
Proof.
  eexists. split; [vm_compute; reflexivity|].
  edestruct (retry_budget_respected noOverrides retried_manager "tx-1")
    as (H0 & Hmax & _).
  - apply reachable_run, reachable_new.
  - vm_compute. reflexivity.
  - split; [exact H0 | exact Hmax].
Defined.

(** ** Saving and loading *)

Lemma foldl_insert_by_id (l : list (string * TransactionState))
    (acc : gmap string TransactionState) :
  Forall (λ kv, id kv.2 = kv.1) l →
  foldl (λ acc state, <[id state := state]> acc) acc (map snd l)
  = foldl (λ acc kv, <[kv.1 := kv.2]> acc) acc l.
Proof.
  revert acc. induction l as [|[k st] l IH]; intros acc Hall; [done|].
  apply Forall_cons in Hall as [Hk Hall]. simpl in *. rewrite Hk. by apply IH.
Qed.

Lemma lookup_foldl_insert {A} (l : list (string * A)) (acc : gmap string A) i x :
  NoDup l.*1 →
  (foldl (λ acc kv, <[kv.1 := kv.2]> acc) acc l) !! i = Some x
  ↔ (i, x) ∈ l ∨ ((i ∉ l.*1) ∧ acc !! i = Some x).
Proof.
  revert acc. induction l as [|[k v] l IH]; intros acc Hnd.
  - simpl. split; [intros H; right; split; [apply not_elem_of_nil | done]|].
    intros [H|[_ H]]; [by apply elem_of_nil in H | done].
  - rewrite fmap_cons in Hnd. apply NoDup_cons in Hnd as [Hk Hnd].
    cbn [foldl]. rewrite (IH _ Hnd). cbn [fst snd]. rewrite fmap_cons. cbn [fst].
    destruct (decide (i = k)) as [->|Hne].
    + rewrite lookup_insert_eq. split.
      * intros [Hin|[_ Heq]].
        -- exfalso. apply Hk. apply list_elem_of_fmap. by exists (k, x).
        -- injection Heq as ->. left. by left.
      * intros [Hin|[Hn _]].
        -- apply elem_of_cons in Hin as [Heq|Hin].
           ++ injection Heq as ->. by right.
           ++ by left.
        -- exfalso. apply Hn. by left.
    + rewrite lookup_insert_ne by done. split.
      * intros [Hin|[Hn Hacc]]; [left; by right|].
        right. split; [|done]. by intros [?|?]%elem_of_cons.
      * intros [Hin|[Hn Hacc]].
        -- apply elem_of_cons in Hin as [Heq|Hin]; [congruence | by left].
        -- right. split; [|done]. intros Hin. apply Hn. by right.
Qed.

(** X4. In every manager reached from a fresh one each state is stored
    under its own [id]; so saving and constructing a new manager over what
    was saved gives back exactly the states of the moment of saving,
    whatever configuration the new manager is given. *)
Theorem save_then_load (p p' : PartialRetryConfig) (m : Manager) :
  reachable p m →
  (∀ transactionId state,
     states m !! transactionId = Some state → id state = transactionId)
  ∧ states (new p' (storage (saveStatesToStorage m))) = states m.
Proof.
  intros Hr.
  assert (Hkeys : ∀ i st, states m !! i = Some st → id st = i).
  { intros i st Hst.
    by destruct (proj2 (reachable_entries_wf p m Hr) i st Hst) as [Hid _]. }
  split; [done|].
  unfold new, loadStatesFromStorage. simpl.
  rewrite foldl_insert_by_id.
  - apply map_eq. intros i. apply option_eq. intros x.
    rewrite lookup_foldl_insert by apply NoDup_fst_map_to_list.
    rewrite lookup_empty, elem_of_map_to_list.
    split; [intros [H|[_ H]]; [done | discriminate H] | by left].
  - apply Forall_forall. intros [k st] Hin. apply elem_of_map_to_list in Hin.
    by apply Hkeys.
Qed.

Lemma save_then_load_witness :
  states (new noOverrides (storage (saveStatesToStorage completed_manager)))
  = states completed_manager.
Proof.
  apply (save_then_load noOverrides noOverrides completed_manager).
  apply reachable_run, reachable_new.
Defined.

(** ** [getProblematicTransactions] *)

Lemma filterThrowing_Some {A} (f : A → option bool) (l : list A) :
  (∀ x, x ∈ l → f x ≠ None) →
  ∃ r, filterThrowing f l = Some r ∧ ∀ x, x ∈ r ↔ x ∈ l ∧ f x = Some true.
Proof.
  induction l as [|y l IH]; intros Hall.
  - exists []. split; [done|]. intros x. split; [by intros ?%elem_of_nil|].
    by intros [?%elem_of_nil _].
  - destruct IH as (r & Hr & Hiff); [intros x Hx; apply Hall; by right|].
    simpl. rewrite Hr.
    destruct (f y) as [b|] eqn:Hy; [|by exfalso; apply (Hall y); [left|]].
    eexists. split; [reflexivity|]. intros x. destruct b.
    + rewrite !elem_of_cons, Hiff. split.
      * intros [->|[? ?]]; [split; [by left | done] | split; [by right | done]].
      * intros [[->|?] ?]; [by left | by right].
    + rewrite elem_of_cons, Hiff. split.
      * intros [? ?]. split; [by right | done].
      * intros [[->|?] ?]; [congruence | done].
Qed.

Lemma filterThrowing_None {A} (f : A → option bool) (l : list A) x :
  x ∈ l → f x = None → filterThrowing f l = None.
Proof.
  induction l as [|y l IH]; intros Hin Hx; [by apply elem_of_nil in Hin|].
  apply elem_of_cons in Hin as [->|Hin]; simpl.
  - by rewrite Hx.
  - rewrite (IH Hin Hx). by destruct (f y).
Qed.

Lemma elem_of_values (s : gmap string TransactionState) st :
  st ∈ map snd (map_to_list s) ↔ ∃ i, s !! i = Some st.
Proof.
  rewrite list_elem_of_fmap. split.
  - intros ([i x] & -> & Hin). exists i. by apply elem_of_map_to_list.
  - intros (i & Hi). exists (i, st). split; [done | by apply elem_of_map_to_list].
Qed.

Lemma problematicFilter_true now st :
  problematicFilter now st = Some true ↔
  (currentStatus st = FAILED
   ∨ (In (currentStatus st) processingStatuses
      ∧ ∃ t, last (transitions st) = Some t ∧ stuckThreshold < now - timestamp t)).
Proof.
  unfold problematicFilter.
  destruct (decide (currentStatus st = FAILED)) as [Hf|Hf]; [by split; [left|]|].
  destruct (last (transitions st)) as [t|].
  - split.
    + intros [= H]. apply andb_true_iff in H as [Hin Hgt]. right.
      split; [by apply includes_In|]. exists t. split; [done|].
      destruct (Z.gtb_spec (now - timestamp t) stuckThreshold); [done | discriminate].
    + intros [?|[Hin (t' & [= <-] & Hlt)]]; [done|]. f_equal.
      apply andb_true_iff. split; [by apply includes_In|].
      destruct (Z.gtb_spec (now - timestamp t) stuckThreshold); [done | lia].
  - split; [discriminate|]. by intros [?|[_ (t & ? & _)]].
Qed.

Lemma problematic_returns (m : Manager) (now : Z) :
  map_Forall (λ _ state, transitions state ≠ []) (states m) →
  ∃ r,
    filterThrowing (problematicFilter now) (map snd (map_to_list (states m))) = Some r
    ∧ ∀ st, st ∈ r ↔ st ∈ map snd (map_to_list (states m))
                     ∧ problematicFilter now st = Some true.
Proof.
  intros Hlogs. apply filterThrowing_Some.
  intros st Hin. apply elem_of_values in Hin as (i & Hi).
  unfold problematicFilter. destruct (decide _); [done|].
  destruct (last (transitions st)) eqn:Hl; [done|].
  apply last_None in Hl. by apply Hlogs in Hi.
Qed.

(** X5. On a store whose states all have a transition log,
    [getProblematicTransactions] returns, changes nothing, and lists exactly
    the stored states that are FAILED, or are in one of the five processing
    statuses with a last transition more than thirty minutes old; a
    COMPLETED or INITIATED state is never listed, however old. If some
    stored state that is not FAILED has an empty log, the call throws. *)
Theorem getProblematicTransactions_spec (m : Manager) (now : Z) :
  (map_Forall (λ _ state, transitions state ≠ []) (states m) →
   ∃ l,
     getProblematicTransactions m now = Ok l m
     ∧ (∀ state,
          state ∈ l ↔
          (∃ transactionId, states m !! transactionId = Some state)
          ∧ (currentStatus state = FAILED
             ∨ (In (currentStatus state) processingStatuses
                ∧ ∃ t, last (transitions state) = Some t
                       ∧ stuckThreshold < now - timestamp t)))
     ∧ (∀ state,
          state ∈ l →
          currentStatus state ≠ COMPLETED ∧ currentStatus state ≠ INITIATED))
  ∧ (∀ transactionId state,
       states m !! transactionId = Some state →
       currentStatus state ≠ FAILED →
       transitions state = [] →
       getProblematicTransactions m now
       = Throw "TypeError: Cannot read properties of undefined" m).
Proof.
  split.
  - intros Hlogs. unfold getProblematicTransactions.
    destruct (problematic_returns m now Hlogs) as (r & Hr & Hiff).
    rewrite Hr. exists r. split; [done|].
    assert (Hchar : ∀ st, st ∈ r ↔
              (∃ i, states m !! i = Some st)
              ∧ (currentStatus st = FAILED
                 ∨ (In (currentStatus st) processingStatuses
                    ∧ ∃ t, last (transitions st) = Some t
                           ∧ stuckThreshold < now - timestamp t))).
    { intros st. by rewrite Hiff, elem_of_values, problematicFilter_true. }
    split; [done|].
    intros st Hin. apply Hchar in Hin as [_ [Hf|[Hp _]]].
    + rewrite Hf. by split.
    + split; intros Hc; rewrite Hc in Hp; simpl in Hp;
        repeat (destruct Hp as [Hp|Hp]; [discriminate Hp|]); done.
  - intros i st Hst Hnf Hempty. unfold getProblematicTransactions.
    rewrite (filterThrowing_None _ _ st); [done | |].
    + apply elem_of_values. by exists i.
    + unfold problematicFilter. rewrite decide_False by done. by rewrite Hempty.
Qed.

Lemma getProblematicTransactions_spec_witness :
  ∃ l,
    getProblematicTransactions completed_manager (1060 + 3600000) = Ok l completed_manager
    ∧ map id l = ["tx-2"].
Proof.
  destruct (proj1 (getProblematicTransactions_spec completed_manager (1060 + 3600000)))
    as (l & Hrun & _).
  - intros i st Hst. apply (wf_nonempty st).
    apply (reachable_all_wf noOverrides completed_manager
             (reachable_run _ _ _ (reachable_new _)) i st Hst).
  - exists l. split; [exact Hrun|].
    assert (Hl : Ok l completed_manager
                 = getProblematicTransactions completed_manager (1060 + 3600000))
      by (symmetry; exact Hrun).
    vm_compute in Hl. injection Hl as ->. reflexivity.
Defined.

(** ** [getStatistics] *)

Lemma statusValue_inj a b : statusValue a = statusValue b → a = b.
Proof. destruct a, b; simpl; intros H; try reflexivity; discriminate H. Qed.

Lemma countByStatus_loop s (l : list TransactionState) :
  ∀ (acc : gmap string Z) c,
    acc !! statusValue s = Some c →
    (foldl (λ stats state, increment stats (statusValue (currentStatus state))) acc l)
      !! statusValue s
    = Some (c + Z.of_nat (length (filter (λ state, currentStatus state = s) l))).
Proof.
  induction l as [|x l IH]; intros acc c Hacc.
  - simpl. by rewrite Z.add_0_r.
  - cbn [foldl]. rewrite filter_cons.
    destruct (decide (currentStatus x = s)) as [Hx|Hx].
    + rewrite (IH _ (c + 1)).
      * f_equal. cbn [length]. lia.
      * unfold increment. rewrite Hx, lookup_insert_eq, Hacc. reflexivity.
    + apply IH. unfold increment. rewrite lookup_insert_ne; [done|].
      intros H. by apply statusValue_inj in H.
Qed.

Lemma countByStatus_lookup s (l : list TransactionState) :
  countByStatus l !! statusValue s
  = Some (Z.of_nat (length (filter (λ state, currentStatus state = s) l))).
Proof.
  unfold countByStatus. rewrite (countByStatus_loop s l _ 0); [done|].
  by destruct s.
Qed.

(** Every state is counted under exactly one status. *)
Lemma count_partition (l : list TransactionState) :
  foldr Z.add 0
    (map (λ s, Z.of_nat (length (filter (λ state, currentStatus state = s) l)))
         all_statuses)
  = Z.of_nat (length l).
Proof.
  induction l as [|x l IH]; [reflexivity|].
  unfold all_statuses in *. cbn [map foldr] in *.
  rewrite !filter_cons.
  destruct (currentStatus x); repeat case_decide; try congruence;
    cbn [length]; lia.
Qed.

Lemma filterThrowing_length {A} (f : A → option bool) (l r : list A) :
  filterThrowing f l = Some r → (length r ≤ length l)%nat.
Proof.
  revert r. induction l as [|x l IH]; intros r Hr; simpl in *.
  - by injection Hr as <-.
  - destruct (f x) as [b|]; [|discriminate].
    destruct (filterThrowing f l) as [r'|]; [|discriminate].
    injection Hr as <-. specialize (IH r' eq_refl). destruct b; simpl; lia.
Qed.

(** X6. On a store whose states all have a transition log, [getStatistics]
    returns and changes nothing; the count it reports under each status is
    the number of states [getTransactionsByStatus] returns for that status;
    the eight counts add up to [total], which is the number of stored
    states; [problematic] is the length of what
    [getProblematicTransactions] returns, and neither it nor [retryable]
    exceeds [total]. *)
Theorem getStatistics_consistent (m : Manager) (now : Z) :
  map_Forall (λ _ state, transitions state ≠ []) (states m) →
  ∃ stats problematic,
    getStatistics m now = Ok stats m
    ∧ getProblematicTransactions m now = Ok problematic m
    ∧ stats !! "total" = Some (Z.of_nat (size (states m)))
    ∧ (∀ s, stats !! statusValue s
            = Some (Z.of_nat (length (getTransactionsByStatus m s))))
    ∧ foldr Z.add 0
        (map (λ s, Z.of_nat (length (getTransactionsByStatus m s))) all_statuses)
      = Z.of_nat (size (states m))
    ∧ stats !! "problematic" = Some (Z.of_nat (length problematic))
    ∧ (∃ retryable,
         stats !! "retryable" = Some retryable
         ∧ 0 ≤ retryable ≤ Z.of_nat (size (states m)))
    ∧ Z.of_nat (length problematic) ≤ Z.of_nat (size (states m)).
Proof.
  intros Hlogs.
  destruct (problematic_returns m now Hlogs) as (l & Hl & _).
  assert (Hrun : getProblematicTransactions m now = Ok l m)
    by (unfold getProblematicTransactions; by rewrite Hl).
  unfold getStatistics. rewrite Hrun.
  do 2 eexists. split; [reflexivity|]. split; [reflexivity|].
  assert (Hlen : length (map snd (map_to_list (states m))) = size (states m))
    by (by rewrite length_map, length_map_to_list).
  split; [|split; [|split; [|split; [|split]]]].
  - rewrite lookup_insert_ne by done. rewrite lookup_insert_ne by done.
    apply lookup_insert_eq.
  - intros s.
    rewrite !lookup_insert_ne by (by destruct s).
    apply countByStatus_lookup.
  - unfold getTransactionsByStatus. by rewrite count_partition, Hlen.
  - rewrite lookup_insert_ne by done. apply lookup_insert_eq.
  - eexists. split; [apply lookup_insert_eq|].
    split; [lia|]. rewrite <- Hlen. apply inj_le. apply List.filter_length_le.
  - rewrite <- Hlen. apply inj_le. by eapply filterThrowing_length.
Qed.

Lemma getStatistics_consistent_witness :
  ∃ stats,
    getStatistics completed_manager 5000 = Ok stats completed_manager
    ∧ stats !! "total" = Some 2
    ∧ stats !! "completed" = Some 1
    ∧ stats !! "failed" = Some 1
    ∧ stats !! "pending" = Some 0.
Proof.
  destruct (getStatistics_consistent completed_manager 5000)
    as (stats & l & Hrun & _ & Htotal & Hcount & _).
  - intros i st Hst. apply (wf_nonempty st).
    apply (reachable_all_wf noOverrides completed_manager
             (reachable_run _ _ _ (reachable_new _)) i st Hst).
  - exists stats. split; [exact Hrun|]. split; [rewrite Htotal; vm_compute; reflexivity|].
    split; [|split].
    + pose proof (Hcount COMPLETED) as H. cbn [statusValue] in H.
      rewrite H. vm_compute. reflexivity.
    + pose proof (Hcount FAILED) as H. cbn [statusValue] in H.
      rewrite H. vm_compute. reflexivity.
    + pose proof (Hcount PENDING) as H. cbn [statusValue] in H.
      rewrite H. vm_compute. reflexivity.
Defined.

(** ** Observers *)

Lemma remove_first_snoc cb (l : list nat) : cb ∉ l → remove_first cb (l ++ [cb]) = l.
Proof.
  induction l as [|c l IH]; intros Hn; simpl.
  - by rewrite decide_True.
  - rewrite decide_False; [|intros ->; apply Hn; by left].
    f_equal. apply IH. intros Hin. apply Hn. by right.
Qed.

Lemma remove_first_absent cb (l : list nat) : cb ∉ l → remove_first cb l = l.
Proof.
  induction l as [|c l IH]; intros Hn; simpl; [done|].
  rewrite decide_False; [|intros ->; apply Hn; by left].
  f_equal. apply IH. intros Hin. apply Hn. by right.
Qed.

Lemma remove_first_length cb (l : list nat) :
  cb ∈ l → S (length (remove_first cb l)) = length l.
Proof.
  induction l as [|c l IH]; intros Hin; [by apply elem_of_nil in Hin|].
  simpl. destruct (decide (c = cb)) as [->|Hne]; [done|].
  simpl. f_equal. apply IH. apply elem_of_cons in Hin as [->|Hin]; [done | done].
Qed.

Lemma remove_first_other cb c (l : list nat) :
  c ≠ cb → c ∈ remove_first cb l ↔ c ∈ l.
Proof.
  intros Hne. induction l as [|x l IH]; simpl; [done|].
  destruct (decide (x = cb)) as [->|Hx].
  - rewrite elem_of_cons. split; [by right|]. by intros [?|?].
  - by rewrite !elem_of_cons, IH.
Qed.

Lemma remove_first_twice_registered cb (l : list nat) :
  cb ∈ remove_first cb (l ++ [cb; cb]).
Proof.
  induction l as [|c l IH]; simpl.
  - rewrite decide_True by done. by left.
  - destruct (decide (c = cb)) as [->|Hne].
    + apply elem_of_app. right. by left.
    + by right.
Qed.

(** X7. Removing a callback that was just registered, and was not
    registered before, restores the manager; removing a callback that is
    not registered changes nothing; removing a registered one takes out one
    registration only (the first), so a callback registered twice is still
    registered after one removal; other callbacks are never affected. *)
Theorem observer_registration (m : Manager) (callback : nat) :
  (callback ∉ statusCallbacks m →
   removeStatusChangeCallback (onStatusChange m callback) callback = m
   ∧ removeStatusChangeCallback m callback = m)
  ∧ (callback ∈ statusCallbacks m →
     S (length (statusCallbacks (removeStatusChangeCallback m callback)))
     = length (statusCallbacks m))
  ∧ callback ∈ statusCallbacks
                 (removeStatusChangeCallback
                    (onStatusChange (onStatusChange m callback) callback) callback)
  ∧ (∀ other, other ≠ callback →
       other ∈ statusCallbacks (removeStatusChangeCallback m callback)
       ↔ other ∈ statusCallbacks m).
Proof.
  split; [|split; [|split]].
  - intros Hn. unfold removeStatusChangeCallback, onStatusChange. simpl.
    rewrite remove_first_snoc, remove_first_absent by done. by destruct m.
  - intros Hin. simpl. by apply remove_first_length.
  - simpl. rewrite <- app_assoc. apply remove_first_twice_registered.
  - intros other Hne. simpl. by apply remove_first_other.
Qed.

(** ** What observers are told *)

Lemma all_reportable_notified m m' : notified m' = notified m → all_reportable m → all_reportable m'.
Proof. unfold all_reportable. by intros ->. Qed.

Lemma all_reportable_notify m i a b :
  all_reportable m →
  isValidTransition a b = true ∨ b = FAILED →
  all_reportable (notifyStatusChange m i a b).
Proof.
  intros H Hab. unfold all_reportable, notifyStatusChange. simpl.
  apply Forall_app. split; [done|].
  apply Forall_forall. intros n Hn.
  apply list_elem_of_fmap in Hn as (cb & -> & _). exact Hab.
Qed.

Lemma all_reportable_transitionTo m now i s r :
  all_reportable m → all_reportable (manager_of (transitionTo m now i s r)).
Proof.
  intros H. unfold transitionTo.
  destruct (states m !! i) as [st|]; [|done].
  destruct (isValidTransition (currentStatus st) s) eqn:Hv; simpl; [|done].
  apply all_reportable_notify; [done | by left].
Qed.

Lemma all_reportable_markAsFailed m now i e r :
  all_reportable m → all_reportable (manager_of (markAsFailed m now i e r)).
Proof.
  intros H. unfold markAsFailed.
  destruct (states m !! i) as [st|]; [|done]. simpl.
  apply all_reportable_notify; [done | by right].
Qed.

Lemma notified_retry_begin m i :
  notified (match retryTransaction_begin m i with
            | RetryAwaits _ _ m' => m'
            | _ => m
            end) = notified m.
Proof.
  unfold retryTransaction_begin.
  destruct (states m !! i); [|done]. by destruct (negb _).
Qed.

Lemma notified_cleanup_loop now a l acc :
  notified (manager_of (foldl (cleanup_step now a) acc l)) = notified (manager_of acc).
Proof.
  revert acc. induction l as [|[i st] l IH]; intros acc; [done|].
  cbn [foldl]. rewrite IH.
  destruct acc as [n m | msg m]; [|done]. unfold cleanup_step.
  destruct (decide _); [|done]. destruct (last _); [|done]. by destruct (_ >? _).
Qed.

Lemma all_reportable_after m now c : all_reportable m → all_reportable (after m now c).
Proof.
  intros H. destruct c as [i s | i s r | i e r | i r | i | i r k | i k v | a]; unfold after.
  - by eapply all_reportable_notified; [|exact H].
  - by apply all_reportable_transitionTo.
  - by apply all_reportable_markAsFailed.
  - unfold retryTransaction.
    pose proof (notified_retry_begin m i) as Hb.
    destruct (retryTransaction_begin m i); simpl; try done.
    apply all_reportable_transitionTo. by eapply all_reportable_notified; [|exact H].
  - eapply all_reportable_notified; [apply notified_retry_begin | exact H].
  - by apply all_reportable_transitionTo.
  - unfold setMetadata. destruct (states m !! i); done.
  - unfold cleanupOldTransactions.
    pose proof (notified_cleanup_loop now a (map_to_list (states m)) (Ok 0 m)) as Hl.
    destruct (foldl _ _ _) as [n m' | msg m']; simpl in *.
    + eapply all_reportable_notified; [|exact H]. by destruct (0 <? n).
    + by eapply all_reportable_notified; [|exact H].
Qed.


(** ** Metadata *)

(** X9. [setMetadata] on an unknown id throws and [getMetadata] of it is
    [null]. On a known id, for a key that is neither empty nor
    ['__proto__'], [setMetadata] returns, and [getMetadata] of that key
    then gives the value written; the values under other (non-empty) keys, the states
    of other ids, the status, the transition log and the retry count are
    as before; what was written is in the saved entry; no observer is
    called. With the empty key [getMetadata] returns the whole record
    instead of one value. *)
Theorem metadata_write_then_read (m : Manager) (transactionId key value : string) :
  (states m !! transactionId = None →
   setMetadata m transactionId key value
   = Throw ("Transaction state not found: " ++ transactionId)%string m
   ∧ getMetadata m transactionId (Some key) = MetadataNull)
  ∧ (∀ state,
       states m !! transactionId = Some state →
       key ≠ ""%string → key ≠ "__proto__"%string →
       ∃ m' state',
         setMetadata m transactionId key value = Ok tt m'
         ∧ getMetadata m' transactionId (Some key) = MetadataValue (Some value)
         ∧ (∀ other, other ≠ key → other ≠ ""%string →
              getMetadata m' transactionId (Some other)
              = getMetadata m transactionId (Some other))
         ∧ (∀ j, j ≠ transactionId → states m' !! j = states m !! j)
         ∧ states m' !! transactionId = Some state'
         ∧ currentStatus state' = currentStatus state
         ∧ transitions state' = transitions state
         ∧ retryCount state' = retryCount state
         ∧ storage m' = Some (map snd (map_to_list (states m')))
         ∧ notified m' = notified m)
  ∧ (∀ state,
       states m !! transactionId = Some state →
       getMetadata m transactionId (Some ""%string) = MetadataAll (metadata state)
       ∧ getMetadata m transactionId None = MetadataAll (metadata state)).
Proof.
  split; [|split].
  - intros Hnone. unfold setMetadata, getMetadata. by rewrite Hnone.
  - intros state Hst Hkey _. unfold setMetadata. rewrite Hst.
    do 2 eexists. split; [reflexivity|].
    split; [|split; [|split; [|split; [apply lookup_insert_eq|]]]].
    + unfold getMetadata. simpl. rewrite lookup_insert_eq.
      destruct key; [done|]. simpl. by rewrite lookup_insert_eq.
    + intros other Hne Hnonempty. unfold getMetadata. simpl.
      rewrite lookup_insert_eq, Hst.
      destruct other; [done|]. simpl. by rewrite lookup_insert_ne.
    + intros j Hj. simpl. by rewrite lookup_insert_ne.
    + by simpl.
  - intros state Hst. unfold getMetadata. by rewrite Hst.
Qed.

Lemma metadata_write_then_read_witness :
  ∃ m',
    setMetadata completed_manager "tx-1" "txHash" "0xabc" = Ok tt m'
    ∧ getMetadata m' "tx-1" (Some "txHash") = MetadataValue (Some "0xabc")
    ∧ getCurrentStatus m' "tx-1" = Some COMPLETED.
Proof.
  edestruct (proj1 (proj2 (metadata_write_then_read completed_manager "tx-1"
                             "txHash" "0xabc")))
    as (m' & st' & Hrun & Hget & _ & _ & Hst & Hcur & _).
  - vm_compute. reflexivity.
  - discriminate.
  - discriminate.
  - exists m'. split; [exact Hrun|]. split; [exact Hget|].
    unfold getCurrentStatus. rewrite Hst. simpl. rewrite Hcur. reflexivity.
Defined.

(** ** Initialising again, and clearing *)

(** X10. [initializeTransaction] has no guard against an id that is already
    stored: the state under it, whatever its status, is replaced by a
    fresh one (one log entry, no retries used, no metadata), the number of
    states stays the same, no other state changes and no observer is
    called. *)
Theorem initializeTransaction_overwrites (m : Manager) (now : Z)
    (transactionId : string) (initialStatus : TransactionStatus)
    (old : TransactionState) :
  states m !! transactionId = Some old →
  ∃ state,
    getTransactionState (snd (initializeTransaction m now transactionId initialStatus))
      transactionId = Some state
    ∧ state = fst (initializeTransaction m now transactionId initialStatus)
    ∧ currentStatus state = initialStatus
    ∧ length (transitions state) = 1%nat
    ∧ retryCount state = 0
    ∧ metadata state = ∅
    ∧ size (states (snd (initializeTransaction m now transactionId initialStatus)))
      = size (states m)
    ∧ (∀ j, j ≠ transactionId →
            states (snd (initializeTransaction m now transactionId initialStatus)) !! j
            = states m !! j)
    ∧ notified (snd (initializeTransaction m now transactionId initialStatus))
      = notified m.
Proof.
  intros Hold. eexists. unfold getTransactionState. simpl.
  split; [apply lookup_insert_eq|].
  do 5 (split; [reflexivity|]).
  split; [|split; [|reflexivity]].
  - rewrite <- (insert_id (states m) transactionId old Hold) at 2.
    rewrite <- (insert_delete_eq (states m)).
    rewrite <- (insert_delete_eq (states m) transactionId old).
    rewrite !map_size_insert_None by apply lookup_delete_eq. reflexivity.
  - intros j Hj. by apply lookup_insert_ne.
Qed.

Lemma initializeTransaction_overwrites_witness :
  getCurrentStatus (snd (initializeTransaction completed_manager 9000 "tx-1" INITIATED))
    "tx-1" = Some INITIATED
  ∧ getCurrentStatus completed_manager "tx-1" = Some COMPLETED.
Proof.
  split; [|vm_compute; reflexivity].
  edestruct (initializeTransaction_overwrites completed_manager 9000 "tx-1" INITIATED)
    as (state & Hst & _ & Hcur & _).
  - vm_compute. reflexivity.
  - unfold getCurrentStatus. unfold getTransactionState in Hst.
    rewrite Hst. simpl. by rewrite Hcur.
Defined.

(** X11. After [clearAllStates] no id is known: every query answers as for an
    unknown id and every mutating call throws the not-found error; the
    callbacks and the configuration stay; a manager constructed afterwards
    over the same [localStorage] starts empty. *)
Theorem clearAllStates_forgets (m : Manager) (p : PartialRetryConfig) (now : Z)
    (transactionId : string) :
  getTransactionState (clearAllStates m) transactionId = None
  ∧ getTransactionHistory (clearAllStates m) transactionId = []
  ∧ canRetry (clearAllStates m) transactionId = false
  ∧ transitionTo (clearAllStates m) now transactionId PENDING None
    = Throw ("Transaction state not found: " ++ transactionId) (clearAllStates m)
  ∧ markAsFailed (clearAllStates m) now transactionId "error" None
    = Throw ("Transaction state not found: " ++ transactionId) (clearAllStates m)
  ∧ statusCallbacks (clearAllStates m) = statusCallbacks m
  ∧ retryConfig (clearAllStates m) = retryConfig m
  ∧ states (new p (storage (clearAllStates m))) = ∅.
Proof.
  unfold getTransactionState, getTransactionHistory, canRetry, transitionTo,
    markAsFailed, notFound.
  simpl. rewrite lookup_empty. by repeat split.
Qed.

End TransactionManagerExtras.

(** * Further properties of the payment service *)
Module PaymentServiceExtras.
Import PaymentService PaymentServiceProofs.
Open Scope list_scope.

(** ** The ids of the stored array *)

Lemma find_none_ids i (l : list StoredTransaction) :
  List.find (λ t, bool_decide (id t = i)) l = None ↔ i ∉ map id l.
Proof.
  induction l as [|x l IH]; simpl.
  - split; [intros _; apply not_elem_of_nil | done].
  - destruct (bool_decide (id x = i)) eqn:Hx.
    + apply bool_decide_eq_true in Hx. split; [discriminate|].
      intros Hn. exfalso. apply Hn. rewrite <- Hx. left.
    + apply bool_decide_eq_false in Hx. rewrite IH, not_elem_of_cons.
      split; [intros Hl; split; [congruence | exact Hl] | intros [_ Hl]; exact Hl].
Qed.

Lemma update_first_ids i f (l l' : list StoredTransaction) :
  (∀ t, id (f t) = id t) → update_first i f l = Some l' → map id l' = map id l.
Proof.
  intros Hf. revert l'. induction l as [|x l IH]; intros l' Hup; simpl in *.
  - discriminate.
  - destruct (bool_decide (id x = i)).
    + injection Hup as <-. simpl. by rewrite Hf.
    + destruct (update_first i f l) as [l0|]; [|discriminate].
      injection Hup as <-. simpl. f_equal. by apply IH.
Qed.

Lemma update_first_ids_const i t0 (l l' : list StoredTransaction) :
  id t0 = i → update_first i (λ _, t0) l = Some l' → map id l' = map id l.
Proof.
  intros Hid. revert l'. induction l as [|x l IH]; intros l' Hup; simpl in *.
  - discriminate.
  - destruct (bool_decide (id x = i)) eqn:Hx.
    + injection Hup as <-. simpl. apply bool_decide_eq_true in Hx. congruence.
    + destruct (update_first i (λ _, t0) l) as [l0|]; [|discriminate].
      injection Hup as <-. simpl. f_equal. by apply IH.
Qed.

Lemma ids_updateTransactionStatus s now i st :
  map id (getStoredTransactions (updateTransactionStatus s now i st))
  = map id (getStoredTransactions s).
Proof.
  unfold updateTransactionStatus.
  destruct (update_first _ _ _) as [l'|] eqn:Hup; [|done].
  simpl. by eapply update_first_ids; [|exact Hup].
Qed.

Lemma ids_updateTransactionField s now i f v :
  map id (getStoredTransactions (updateTransactionField s now i f v))
  = map id (getStoredTransactions s).
Proof.
  unfold updateTransactionField.
  destruct (update_first _ _ _) as [l'|] eqn:Hup; [|done].
  simpl. by eapply update_first_ids; [|exact Hup].
Qed.

Lemma updateTransactionStatus_absent s now i st :
  getStoredTransaction s i = None → updateTransactionStatus s now i st = s.
Proof.
  unfold getStoredTransaction, updateTransactionStatus. intros H.
  by rewrite (update_first_none _ _ _ H).
Qed.

Lemma updateTransactionField_absent s now i f v :
  getStoredTransaction s i = None → updateTransactionField s now i f v = s.
Proof.
  unfold getStoredTransaction, updateTransactionField. intros H.
  by rewrite (update_first_none _ _ _ H).
Qed.

Lemma updateTransactionField_found s now i f v t :
  getStoredTransaction s i = Some t →
  getStoredTransaction (updateTransactionField s now i f v) i
  = Some (with_field t f v now)
  ∧ ∀ j, j ≠ i →
         getStoredTransaction (updateTransactionField s now i f v) j
         = getStoredTransaction s j.
Proof.
  unfold getStoredTransaction, updateTransactionField. intros Hfind.
  destruct (update_first_find i (λ t, with_field t f v now) _ t Hfind)
    as (l' & -> & Hf & Ho).
  - simpl. by eapply find_id_spec.
  - by split.
Qed.

Lemma ids_storeTransaction s now transaction :
  map id (getStoredTransactions (storeTransaction s now transaction))
  = if decide (tx_id transaction ∈ map id (getStoredTransactions s))
    then map id (getStoredTransactions s)
    else map id (getStoredTransactions s) ++ [tx_id transaction].
Proof.
  unfold storeTransaction.
  destruct (update_first _ _ _) as [l'|] eqn:Hup.
  - assert (Hin : tx_id transaction ∈ map id (getStoredTransactions s)).
    { destruct (decide (tx_id transaction ∈ map id (getStoredTransactions s)));
        [done|].
      apply find_none_ids in n. by rewrite (update_first_none _ _ _ n) in Hup. }
    rewrite decide_True by done. simpl.
    by eapply update_first_ids_const; [|exact Hup].
  - assert (Hn : tx_id transaction ∉ map id (getStoredTransactions s)).
    { intros Hin.
      destruct (List.find (λ t, bool_decide (id t = tx_id transaction))
                  (getStoredTransactions s)) as [t|] eqn:Hf.
      - destruct (update_first_find _ (λ _, stored_of transaction now) _ t Hf eq_refl)
          as (l' & Hl' & _). congruence.
      - by apply find_none_ids in Hf. }
    rewrite decide_False by done. simpl. by rewrite map_app.
Qed.

Section Built.

Variable validateAddress : string → bool.

Lemma NoDup_ids_storeTransaction s now transaction :
  NoDup (map id (getStoredTransactions s)) →
  NoDup (map id (getStoredTransactions (storeTransaction s now transaction))).
Proof.
  intros Hnd. rewrite ids_storeTransaction. case_decide; [done|].
  apply NoDup_app. split; [done|]. split; [|apply NoDup_singleton].
  intros x Hx Hx'. apply list_elem_of_singleton in Hx'. by subst.
Qed.

Lemma NoDup_ids_perform s a :
  NoDup (map id (getStoredTransactions s)) →
  NoDup (map id (getStoredTransactions (perform validateAddress s a))).
Proof.
  intros Hnd.
  assert (Hinit : ∀ e request,
            NoDup (map id (getStoredTransactions
                             (storage_of (initiatePayment validateAddress e s request))))).
  { intros e request. unfold initiatePayment.
    destruct (validatePaymentRequest validateAddress request); [done|].
    simpl. unfold processPayment_start.
    rewrite !ids_updateTransactionStatus. by apply NoDup_ids_storeTransaction. }
  destruct a as [e request|now i|e i|now i st|now i f v|]; simpl.
  - apply Hinit.
  - unfold cancelPayment. destruct (getStoredTransaction s i); [|done].
    destruct (includes _ _); [|done]. simpl. by rewrite ids_updateTransactionStatus.
  - unfold retryPayment. destruct (getStoredTransaction s i); [|done].
    destruct (negb _); [done|]. apply Hinit.
  - by rewrite ids_updateTransactionStatus.
  - by rewrite ids_updateTransactionField.
  - apply NoDup_nil_2.
Qed.

Lemma find_of_NoDup (l : list StoredTransaction) t :
  NoDup (map id l) → t ∈ l → List.find (λ x, bool_decide (id x = id t)) l = Some t.
Proof.
  induction l as [|x l IH]; intros Hnd Hin; [by apply elem_of_nil in Hin|].
  simpl in *. apply NoDup_cons in Hnd as [Hx Hnd].
  apply elem_of_cons in Hin as [->|Hin].
  - by rewrite bool_decide_eq_true_2.
  - rewrite bool_decide_eq_false_2; [by apply IH|].
    intros Heq. apply Hx. rewrite Heq. apply list_elem_of_fmap. by exists t.
Qed.

(** X12. The array the service builds never holds two records with the same
    id, so every stored record is the one found under its id. *)
Theorem built_ids_unique (s : Storage) :
  built validateAddress s →
  NoDup (map id (getStoredTransactions s))
  ∧ ∀ stored, stored ∈ getStoredTransactions s →
              getStoredTransaction s (id stored) = Some stored.
Proof.
  intros Hb.
  assert (Hnd : NoDup (map id (getStoredTransactions s))).
  { induction Hb; [apply NoDup_nil_2 | by apply NoDup_ids_perform]. }
  split; [done|]. intros stored Hin. by apply find_of_NoDup.
Qed.

(** X13. In a storage entry the service built, every record found has a
    positive amount, a non-empty currency and a non-empty recipient that
    the blockchain client accepts. *)
Theorem built_records_validated (s : Storage) (i : string) (stored : StoredTransaction) :
  built validateAddress s →
  getStoredTransaction s i = Some stored →
  (0 < stored_amount stored)%Q
  ∧ stored_currency stored ≠ ""%string
  ∧ recipient stored ≠ ""%string
  ∧ validateAddress (recipient stored) = true.
Proof.
  intros Hb Hfind.
  pose proof (built_well_formed validateAddress s i stored Hb Hfind) as Hw.
  unfold well_formed, validatePaymentRequest, request_of in Hw. simpl in Hw.
  destruct (Qle_bool (stored_amount stored) 0) eqn:Hle;
    [by rewrite orb_true_r in Hw|].
  rewrite orb_false_r in Hw.
  destruct (Qeq_bool (stored_amount stored) 0); [discriminate|].
  destruct (bool_decide (stored_currency stored = "")) eqn:Hc; [discriminate|].
  destruct (bool_decide (recipient stored = "")) eqn:Hr; [discriminate|].
  destruct (validateAddress (recipient stored)) eqn:Ha; [|discriminate].
  split; [|split; [|split]].
  - apply Qnot_le_lt. intros Hq. apply Qle_bool_iff in Hq. congruence.
  - by apply bool_decide_eq_false in Hc.
  - by apply bool_decide_eq_false in Hr.
  - reflexivity.
Qed.

End Built.

Lemma built_cancelled_storage :
  built MockBlockchainService.validateAddress cancelled_storage.
Proof.
  apply (built_perform _ initiated_storage (DoCancel 1700000001000 first_id)).
  apply (built_perform _ None (DoInitiate first_env sample_request)).
  apply built_empty.
Qed.

Lemma built_ids_unique_witness :
  NoDup (map id (getStoredTransactions cancelled_storage)).
Proof.
  apply (built_ids_unique MockBlockchainService.validateAddress cancelled_storage).
  apply built_cancelled_storage.
Defined.

Lemma built_records_validated_witness :
  ∃ stored,
    getStoredTransaction cancelled_storage first_id = Some stored
    ∧ (0 < stored_amount stored)%Q
    ∧ MockBlockchainService.validateAddress (recipient stored) = true.
Proof.
  eexists. split; [vm_compute; reflexivity|].
  edestruct (built_records_validated MockBlockchainService.validateAddress
               cancelled_storage first_id) as (Ha & _ & _ & Hv).
  - apply built_cancelled_storage.
  - vm_compute. reflexivity.
  - split; [exact Ha | exact Hv].
Defined.

(** ** Storing and reading back *)

(** X14. [storeTransaction] followed by [getTransaction] gives the
    transaction back; a record of the same id is replaced where it stands
    (the array neither grows nor is reordered) and the correlation ids it
    carried are gone; no other record changes. *)
Theorem storeTransaction_then_getTransaction (s : Storage) (now : Z)
    (transaction : Transaction) :
  getTransaction (storeTransaction s now transaction) (tx_id transaction)
  = Some transaction
  ∧ (∃ stored,
       getStoredTransaction (storeTransaction s now transaction) (tx_id transaction)
       = Some stored
       ∧ updatedAt stored = now
       ∧ fernOnRampId stored = None ∧ fernOffRampId stored = None)
  ∧ (∀ j, j ≠ tx_id transaction →
          getStoredTransaction (storeTransaction s now transaction) j
          = getStoredTransaction s j)
  ∧ map id (getStoredTransactions (storeTransaction s now transaction))
    = if decide (tx_id transaction ∈ map id (getStoredTransactions s))
      then map id (getStoredTransactions s)
      else map id (getStoredTransactions s) ++ [tx_id transaction].
Proof.
  destruct (storeTransaction_lookup s now transaction) as [Hat Hother].
  split; [|split; [|split]].
  - unfold getTransaction. rewrite Hat. simpl. by destruct transaction.
  - exists (stored_of transaction now). by rewrite Hat.
  - exact Hother.
  - apply ids_storeTransaction.
Qed.

(** X15. The status and field updates never add, remove or reorder
    records, and leave the storage entry as it is when the id is not
    stored. *)
Theorem updates_never_create (s : Storage) (now : Z) (i : string)
    (st : TransactionStatus) (f : Field) (value : string) :
  map id (getStoredTransactions (updateTransactionStatus s now i st))
  = map id (getStoredTransactions s)
  ∧ map id (getStoredTransactions (updateTransactionField s now i f value))
    = map id (getStoredTransactions s)
  ∧ (getStoredTransaction s i = None →
     updateTransactionStatus s now i st = s
     ∧ updateTransactionField s now i f value = s).
Proof.
  split; [apply ids_updateTransactionStatus|].
  split; [apply ids_updateTransactionField|].
  intros Hnone. split.
  - by apply updateTransactionStatus_absent.
  - by apply updateTransactionField_absent.
Qed.

Lemma update_first_snoc i f (l : list StoredTransaction) x :
  i ∉ map id l → id x = i → update_first i f (l ++ [x]) = Some (l ++ [f x]).
Proof.
  intros Hn Hx. induction l as [|y l IH]; simpl in *.
  - by rewrite bool_decide_eq_true_2.
  - apply not_elem_of_cons in Hn as [Hy Hn].
    rewrite bool_decide_eq_false_2 by congruence.
    by rewrite IH.
Qed.

Section Initiate.

Variable validateAddress : string → bool.

(** X16. A request that passes validation is accepted: the transaction
    returned reads INITIATED, while the stored record already reads
    ON_RAMPING when the promise resolves; reading it back gives the same
    payment data, and no other record changes. *)
Theorem initiatePayment_accepts (e : Env) (s : Storage) (request : PaymentRequest) :
  validatePaymentRequest validateAddress request = None →
  ∃ s',
    initiatePayment validateAddress e s request
    = Ok {| tx_id := generateTransactionId e;
            tx_timestamp := dateNow e;
            tx_amount := amount request;
            tx_currency := currency request;
            tx_recipient := recipientAddress request;
            tx_status := INITIATED;
            tx_fees := calculatedFees e;
            tx_txHash := None |} s'
    ∧ getTransactionStatus s' (generateTransactionId e) = Ok ON_RAMPING s'
    ∧ getTransaction s' (generateTransactionId e)
      = Some {| tx_id := generateTransactionId e;
                tx_timestamp := dateNow e;
                tx_amount := amount request;
                tx_currency := currency request;
                tx_recipient := recipientAddress request;
                tx_status := ON_RAMPING;
                tx_fees := calculatedFees e;
                tx_txHash := None |}
    ∧ ∀ j, j ≠ generateTransactionId e →
           getStoredTransaction s' j = getStoredTransaction s j.
Proof.
  intros Hv. rewrite (initiatePayment_valid validateAddress e s request Hv).
  eexists. split; [reflexivity|].
  match goal with
  | |- context [storeTransaction s (dateNow e) ?T] =>
      destruct (storeTransaction_lookup s (dateNow e) T) as [Hs Ho];
      destruct (processPayment_start_lookup _ (dateNow e) _ _ Hs) as [Hp Hpo]
  end.
  simpl in Hp, Hpo, Ho.
  unfold getTransactionStatus, getTransaction. rewrite Hp.
  split; [reflexivity|]. split; [reflexivity|].
  intros j Hj. rewrite Hpo by done. by apply Ho.
Qed.

(** X17. When the id generated is not yet stored, the history grows by
    exactly the new payment, at its end, and the payments before it read
    as they did. *)
Theorem initiatePayment_appends (e : Env) (s : Storage) (request : PaymentRequest) :
  validatePaymentRequest validateAddress request = None →
  getStoredTransaction s (generateTransactionId e) = None →
  getTransactionHistory (storage_of (initiatePayment validateAddress e s request))
  = getTransactionHistory s
    ++ [ {| tx_id := generateTransactionId e;
            tx_timestamp := dateNow e;
            tx_amount := amount request;
            tx_currency := currency request;
            tx_recipient := recipientAddress request;
            tx_status := ON_RAMPING;
            tx_fees := calculatedFees e;
            tx_txHash := None |} ].
Proof.
  intros Hv Hfresh. rewrite (initiatePayment_valid validateAddress e s request Hv).
  simpl. unfold getStoredTransaction in Hfresh.
  pose proof Hfresh as Hn. apply find_none_ids in Hn.
  unfold processPayment_start, storeTransaction. simpl.
  rewrite (update_first_none _ _ _ Hfresh).
  unfold updateTransactionStatus at 2. simpl.
  rewrite update_first_snoc by done.
  unfold updateTransactionStatus. simpl.
  rewrite update_first_snoc by done.
  unfold getTransactionHistory. simpl. by rewrite map_app.
Qed.

End Initiate.

Lemma initiatePayment_accepts_witness :
  ∃ s',
    storage_of (initiatePayment MockBlockchainService.validateAddress first_env None
                  sample_request) = s'
    ∧ getTransactionStatus s' first_id = Ok ON_RAMPING s'.
Proof.
  destruct (initiatePayment_accepts MockBlockchainService.validateAddress first_env
              None sample_request) as (s' & Hr & Hst & _).
  - vm_compute. reflexivity.
  - exists s'. split; [by rewrite Hr | exact Hst].
Defined.

Lemma initiatePayment_appends_witness :
  length (getTransactionHistory
            (storage_of (initiatePayment MockBlockchainService.validateAddress
                           retry_env cancelled_storage sample_request))) = 2%nat.
Proof.
  rewrite (initiatePayment_appends MockBlockchainService.validateAddress retry_env
             cancelled_storage sample_request).
  - vm_compute. reflexivity.
  - vm_compute. reflexivity.
  - vm_compute. reflexivity.
Defined.

(** ** Cancelling *)

(** X18. A payment is cancelled at most once: after a cancel that
    returned [true], another cancel of the same id returns [false] and
    changes nothing. *)
Theorem cancelPayment_twice (s : Storage) (now now' : Z) (i : string) (s1 : Storage) :
  cancelPayment s now i = Ok true s1 →
  cancelPayment s1 now' i = Ok false s1.
Proof.
  unfold cancelPayment at 1.
  destruct (getStoredTransaction s i) as [t|] eqn:Hfind; [|discriminate].
  destruct (includes _ _); [|discriminate].
  intros [= <-].
  destruct (updateTransactionStatus_found s now i FAILED t Hfind) as [Hat _].
  unfold cancelPayment. by rewrite Hat.
Qed.

Lemma cancelPayment_twice_witness :
  cancelPayment cancelled_storage 1700000002000 first_id = Ok false cancelled_storage.
Proof.
  apply (cancelPayment_twice initiated_storage 1700000001000 1700000002000 first_id).
  vm_compute. reflexivity.
Defined.

(** ** The polling loops *)

Lemma pollLoop_spec tryBlock timeout remaining attempts :
  match pollLoop tryBlock remaining attempts timeout with
  | WaitResolves k =>
      (attempts ≤ k < attempts + remaining)%nat
      ∧ tryBlock k = Returns
      ∧ ∀ j, (attempts ≤ j < k)%nat → tryBlock j ≠ Returns
  | WaitRejects msg k =>
      msg = timeout
      ∧ k = (attempts + remaining)%nat
      ∧ ∀ j, (attempts ≤ j < attempts + remaining)%nat → tryBlock j ≠ Returns
  end.
Proof.
  revert attempts. induction remaining as [|r IH]; intros attempts; simpl.
  - split; [done|]. split; [lia|]. intros j Hj. lia.
  - destruct (tryBlock attempts) eqn:Ht.
    + split; [lia|]. split; [done|]. intros j Hj. lia.
    + specialize (IH (S attempts)).
      destruct (pollLoop tryBlock r (S attempts) timeout) as [k|msg' k].
      * destruct IH as (Hk & Hr & Hn). split; [lia|]. split; [done|].
        intros j Hj. destruct (decide (j = attempts)) as [->|]; [congruence|].
        apply Hn. lia.
      * destruct IH as (-> & -> & Hn). split; [done|]. split; [lia|].
        intros j Hj. destruct (decide (j = attempts)) as [->|]; [congruence|].
        apply Hn. lia.
    + specialize (IH (S attempts)).
      destruct (pollLoop tryBlock r (S attempts) timeout) as [k|msg' k].
      * destruct IH as (Hk & Hr & Hn). split; [lia|]. split; [done|].
        intros j Hj. destruct (decide (j = attempts)) as [->|]; [congruence|].
        apply Hn. lia.
      * destruct IH as (-> & -> & Hn). split; [done|]. split; [lia|].
        intros j Hj. destruct (decide (j = attempts)) as [->|]; [congruence|].
        apply Hn. lia.
Qed.

Lemma pollLoop_rejects tryBlock timeout remaining attempts msg k :
  pollLoop tryBlock remaining attempts timeout = WaitRejects msg k → msg = timeout.
Proof.
  intros H. pose proof (pollLoop_spec tryBlock timeout remaining attempts) as Hs.
  rewrite H in Hs. by destruct Hs.
Qed.

Lemma pollLoop_never tryBlock timeout remaining attempts :
  (∀ j, tryBlock j ≠ Returns) →
  pollLoop tryBlock remaining attempts timeout
  = WaitRejects timeout (attempts + remaining).
Proof.
  intros Hn. revert attempts. induction remaining as [|r IH]; intros attempts; simpl.
  - f_equal. lia.
  - destruct (tryBlock attempts) eqn:Ht; [by apply Hn in Ht| |];
      rewrite IH; f_equal; lia.
Qed.

Lemma onRampTry_Returns r : onRampTry r = Returns ↔ r = Resolved RampCompleted.
Proof. destruct r as [[]|]; simpl; split; intros H; congruence. Qed.

Lemma offRampTry_Returns r : offRampTry r = Returns ↔ r = Resolved RampCompleted.
Proof. destruct r as [[]|]; simpl; split; intros H; congruence. Qed.

Lemma confirmationTry_Returns r : confirmationTry r = Returns ↔ enoughConfirmations r.
Proof.
  unfold enoughConfirmations. destruct r as [[st [n|]]|msg]; simpl.
  - destruct st; simpl.
    + split; [discriminate | intros (k & Hk & _); congruence].
    + destruct (3 <=? n)%Z eqn:Hle.
      * split; [|done]. intros _. exists n. split; [done|]. by apply Z.leb_le.
      * split; [discriminate|]. intros (k & [= <-] & Hk).
        apply Z.leb_le in Hk. congruence.
    + split; [discriminate | intros (k & Hk & _); congruence].
  - destruct st; simpl; (split; [discriminate | intros (k & Hk & _); congruence]).
  - split; [discriminate | intros (k & Hk & _); congruence].
Qed.

(** X19. The on-ramp wait resolves exactly at the first of its thirty
    polls that reports [completed], and otherwise rejects after thirty
    sleeps with the timeout message; the off-ramp wait does the same with
    twenty polls. A poll that reports [failed] or is rejected does not end
    a wait: the error of the [try] block is caught in the same turn. *)
Theorem waitForRampCompletion_spec (polls : nat → settled RampStatus) :
  match waitForOnRampCompletion polls with
  | WaitResolves k =>
      (k < 30)%nat ∧ polls k = Resolved RampCompleted
      ∧ ∀ j, (j < k)%nat → polls j ≠ Resolved RampCompleted
  | WaitRejects msg k =>
      msg = "On-ramp timeout"%string ∧ k = 30%nat
      ∧ ∀ j, (j < 30)%nat → polls j ≠ Resolved RampCompleted
  end
  ∧ match waitForOffRampCompletion polls with
    | WaitResolves k =>
        (k < 20)%nat ∧ polls k = Resolved RampCompleted
        ∧ ∀ j, (j < k)%nat → polls j ≠ Resolved RampCompleted
    | WaitRejects msg k =>
        msg = "Off-ramp timeout"%string ∧ k = 20%nat
        ∧ ∀ j, (j < 20)%nat → polls j ≠ Resolved RampCompleted
    end
  ∧ ((∀ k, polls k = Resolved RampFailed ∨ ∃ msg, polls k = Rejected msg) →
     waitForOnRampCompletion polls = WaitRejects "On-ramp timeout" 30
     ∧ waitForOffRampCompletion polls = WaitRejects "Off-ramp timeout" 20).
Proof.
  split; [|split].
  - unfold waitForOnRampCompletion.
    pose proof (pollLoop_spec (λ k, onRampTry (polls k)) "On-ramp timeout" 30 0) as H.
    destruct (pollLoop _ _ _ _) as [k|msg k].
    + destruct H as (Hk & Hr & Hn). split; [lia|].
      split; [by apply onRampTry_Returns|].
      intros j Hj Hc. apply (Hn j); [lia|]. by apply onRampTry_Returns.
    + destruct H as (-> & -> & Hn). split; [done|]. split; [done|].
      intros j Hj Hc. apply (Hn j); [lia|]. by apply onRampTry_Returns.
  - unfold waitForOffRampCompletion.
    pose proof (pollLoop_spec (λ k, offRampTry (polls k)) "Off-ramp timeout" 20 0) as H.
    destruct (pollLoop _ _ _ _) as [k|msg k].
    + destruct H as (Hk & Hr & Hn). split; [lia|].
      split; [by apply offRampTry_Returns|].
      intros j Hj Hc. apply (Hn j); [lia|]. by apply offRampTry_Returns.
    + destruct H as (-> & -> & Hn). split; [done|]. split; [done|].
      intros j Hj Hc. apply (Hn j); [lia|]. by apply offRampTry_Returns.
  - intros Hbad. split.
    + unfold waitForOnRampCompletion.
      rewrite pollLoop_never; [done|].
      intros j Hc. apply onRampTry_Returns in Hc.
      destruct (Hbad j) as [Hf|[msg Hf]]; congruence.
    + unfold waitForOffRampCompletion.
      rewrite pollLoop_never; [done|].
      intros j Hc. apply offRampTry_Returns in Hc.
      destruct (Hbad j) as [Hf|[msg Hf]]; congruence.
Qed.

(** X20. The confirmation wait resolves exactly at the first of its sixty
    polls that reports [confirmed] with at least three confirmations (a
    missing count reads as zero), and otherwise rejects after sixty sleeps
    with the timeout message, whatever failures were reported. *)
Theorem waitForBlockchainConfirmation_spec (polls : nat → settled TransactionResponse) :
  match waitForBlockchainConfirmation polls with
  | WaitResolves k =>
      (k < 60)%nat ∧ enoughConfirmations (polls k)
      ∧ ∀ j, (j < k)%nat → ¬ enoughConfirmations (polls j)
  | WaitRejects msg k =>
      msg = "Blockchain confirmation timeout"%string ∧ k = 60%nat
      ∧ ∀ j, (j < 60)%nat → ¬ enoughConfirmations (polls j)
  end
  ∧ ¬ enoughConfirmations
        (Resolved {| chain_status := ChainConfirmed; confirmations := None |})
  ∧ ¬ enoughConfirmations
        (Resolved {| chain_status := ChainConfirmed; confirmations := Some 2%Z |}).
Proof.
  split; [|split].
  - unfold waitForBlockchainConfirmation.
    pose proof (pollLoop_spec (λ k, confirmationTry (polls k))
                  "Blockchain confirmation timeout" 60 0) as H.
    destruct (pollLoop _ _ _ _) as [k|msg k].
    + destruct H as (Hk & Hr & Hn). split; [lia|].
      split; [by apply confirmationTry_Returns|].
      intros j Hj Hc. apply (Hn j); [lia|]. by apply confirmationTry_Returns.
    + destruct H as (-> & -> & Hn). split; [done|]. split; [done|].
      intros j Hj Hc. apply (Hn j); [lia|]. by apply confirmationTry_Returns.
  - intros Hc. by apply confirmationTry_Returns in Hc.
  - intros Hc. by apply confirmationTry_Returns in Hc.
Qed.

(** ** The pipeline *)

(** One write of the pipeline on a record that is stored: the record found
    afterwards is named, and the storage entry written becomes opaque. *)
Ltac pipeline_write :=
  match goal with
  | H : getStoredTransaction ?s ?i = Some ?t
    |- context [updateTransactionStatus ?s ?now ?i ?st] =>
      let Hat := fresh "Hat" in
      let Hother := fresh "Hother" in
      let written := fresh "written" in
      destruct (updateTransactionStatus_found s now i st t H) as [Hat Hother];
      set (written := updateTransactionStatus s now i st) in *;
      clearbody written
  | H : getStoredTransaction ?s ?i = Some ?t
    |- context [updateTransactionField ?s ?now ?i ?f ?v] =>
      let Hat := fresh "Hat" in
      let Hother := fresh "Hother" in
      let written := fresh "written" in
      destruct (updateTransactionField_found s now i f v t H) as [Hat Hother];
      set (written := updateTransactionField s now i f v) in *;
      clearbody written
  end.

(** The records of other ids after a chain of writes. *)
Ltac other_records :=
  let j := fresh "j" in
  let Hj := fresh "Hj" in
  intros j Hj;
  repeat match goal with
         | H : ∀ j, j ≠ _ → getStoredTransaction _ j = getStoredTransaction _ j
           |- _ => rewrite (H j Hj); clear H
         end;
  reflexivity.

Lemma waitForOnRampCompletion_rejects polls msg k :
  waitForOnRampCompletion polls = WaitRejects msg k → msg = "On-ramp timeout"%string.
Proof. unfold waitForOnRampCompletion. apply pollLoop_rejects. Qed.

Lemma waitForBlockchainConfirmation_rejects polls msg k :
  waitForBlockchainConfirmation polls = WaitRejects msg k →
  msg = "Blockchain confirmation timeout"%string.
Proof. unfold waitForBlockchainConfirmation. apply pollLoop_rejects. Qed.

Lemma waitForOffRampCompletion_rejects polls msg k :
  waitForOffRampCompletion polls = WaitRejects msg k → msg = "Off-ramp timeout"%string.
Proof. unfold waitForOffRampCompletion. apply pollLoop_rejects. Qed.

Lemma processPayment_rest_completes c clock s i t s' :
  getStoredTransaction s i = Some t →
  processPayment_rest c clock s i = Ok tt s' →
  ∃ t', getStoredTransaction s' i = Some t' ∧ status t' = COMPLETED.
Proof.
  intros Hfind. unfold processPayment_rest, processPayment_catch. cbv zeta.
  destruct (initiateOnRamp c); [|discriminate].
  destruct (waitForOnRampCompletion (getOnRampStatus c)); [|discriminate].
  destruct (sendPYUSD c); [|discriminate].
  destruct (waitForBlockchainConfirmation (getBlockchainStatus c)); [|discriminate].
  destruct (initiateOffRamp c); [|discriminate].
  destruct (waitForOffRampCompletion (getOffRampStatus c)); [|discriminate].
  intros [= <-]. repeat pipeline_write.
  eexists. split; [eassumption | reflexivity].
Qed.

Lemma processPayment_rest_flow c clock clock' s s' i i' s1 :
  processPayment_rest c clock s i = Ok tt s1 →
  ∃ s2, processPayment_rest c clock' s' i' = Ok tt s2.
Proof.
  unfold processPayment_rest, processPayment_catch. cbv zeta.
  destruct (initiateOnRamp c); [|discriminate].
  destruct (waitForOnRampCompletion (getOnRampStatus c)); [|discriminate].
  destruct (sendPYUSD c); [|discriminate].
  destruct (waitForBlockchainConfirmation (getBlockchainStatus c)); [|discriminate].
  destruct (initiateOffRamp c); [|discriminate].
  destruct (waitForOffRampCompletion (getOffRampStatus c)); [|discriminate].
  intros _. eexists. reflexivity.
Qed.

Lemma processPayment_rest_absent c clock s i :
  getStoredTransaction s i = None →
  storage_of (processPayment_rest c clock s i) = s.
Proof.
  intros Hnone. unfold processPayment_rest, processPayment_catch. cbv zeta.
  assert (Hstatus : ∀ now st, updateTransactionStatus s now i st = s)
    by (intros; by apply updateTransactionStatus_absent).
  assert (Hfield : ∀ now f v, updateTransactionField s now i f v = s)
    by (intros; by apply updateTransactionField_absent).
  destruct (initiateOnRamp c); rewrite ?Hfield, ?Hstatus; [|done].
  destruct (waitForOnRampCompletion (getOnRampStatus c));
    rewrite ?Hfield, ?Hstatus; [|done].
  destruct (sendPYUSD c); rewrite ?Hfield, ?Hstatus; [|done].
  destruct (waitForBlockchainConfirmation (getBlockchainStatus c));
    rewrite ?Hfield, ?Hstatus; [|done].
  destruct (initiateOffRamp c); rewrite ?Hfield, ?Hstatus; [|done].
  destruct (waitForOffRampCompletion (getOffRampStatus c));
    rewrite ?Hfield, ?Hstatus; done.
Qed.

(** X21. A pipeline that runs on a stored record never leaves it in
    flight. It resolves only if the three initiating calls resolved, and
    then the record reads COMPLETED and carries the three ids returned; it
    rejects with the rejection of an initiating call or with one of the
    three timeout messages, and then the record reads FAILED and keeps the
    on-ramp id if one was returned. The payment data of the record and all
    other records are as before. *)
Theorem processPayment_settles (c : Collaborators) (clock : nat → Z) (s : Storage)
    (i : string) (t : StoredTransaction) :
  getStoredTransaction s i = Some t →
  match processPayment_rest c clock s i with
  | Ok _ s' =>
      ∃ onRampId hash offRampId t',
        initiateOnRamp c = Resolved onRampId
        ∧ sendPYUSD c = Resolved hash
        ∧ initiateOffRamp c = Resolved offRampId
        ∧ getStoredTransaction s' i = Some t'
        ∧ status t' = COMPLETED
        ∧ fernOnRampId t' = Some onRampId
        ∧ txHash t' = Some hash
        ∧ fernOffRampId t' = Some offRampId
        ∧ request_of t' = request_of t
        ∧ fees t' = fees t
        ∧ createdAt t' = createdAt t
        ∧ ∀ j, j ≠ i → getStoredTransaction s' j = getStoredTransaction s j
  | Throw msg s' =>
      ∃ t',
        getStoredTransaction s' i = Some t'
        ∧ status t' = FAILED
        ∧ (initiateOnRamp c = Rejected msg
           ∨ msg = "On-ramp timeout"%string
           ∨ sendPYUSD c = Rejected msg
           ∨ msg = "Blockchain confirmation timeout"%string
           ∨ initiateOffRamp c = Rejected msg
           ∨ msg = "Off-ramp timeout"%string)
        ∧ (∀ onRampId, initiateOnRamp c = Resolved onRampId →
                       fernOnRampId t' = Some onRampId)
        ∧ request_of t' = request_of t
        ∧ fees t' = fees t
        ∧ createdAt t' = createdAt t
        ∧ ∀ j, j ≠ i → getStoredTransaction s' j = getStoredTransaction s j
  end.
Proof.
  intros Hfind. unfold processPayment_rest, processPayment_catch.
  destruct (initiateOnRamp c) as [onRampId|msg] eqn:E1; cbv beta iota zeta.
  2: { repeat pipeline_write. eexists. split; [eassumption|].
       split; [reflexivity|]. split; [auto|].
       split; [intros ? [=]|]. do 3 (split; [reflexivity|]). other_records. }
  destruct (waitForOnRampCompletion (getOnRampStatus c)) as [k1|msg k1] eqn:E2;
    cbv beta iota zeta.
  2: { apply waitForOnRampCompletion_rejects in E2 as ->.
       repeat pipeline_write. eexists. split; [eassumption|].
       split; [reflexivity|]. split; [auto|].
       split; [by intros ? [= <-]|]. do 3 (split; [reflexivity|]). other_records. }
  destruct (sendPYUSD c) as [hash|msg] eqn:E3; cbv beta iota zeta.
  2: { repeat pipeline_write. eexists. split; [eassumption|].
       split; [reflexivity|]. split; [auto|].
       split; [by intros ? [= <-]|]. do 3 (split; [reflexivity|]). other_records. }
  destruct (waitForBlockchainConfirmation (getBlockchainStatus c)) as [k2|msg k2] eqn:E4;
    cbv beta iota zeta.
  2: { apply waitForBlockchainConfirmation_rejects in E4 as ->.
       repeat pipeline_write. eexists. split; [eassumption|].
       split; [reflexivity|]. split; [auto 6|].
       split; [by intros ? [= <-]|]. do 3 (split; [reflexivity|]). other_records. }
  destruct (initiateOffRamp c) as [offRampId|msg] eqn:E5; cbv beta iota zeta.
  2: { repeat pipeline_write. eexists. split; [eassumption|].
       split; [reflexivity|]. split; [auto 7|].
       split; [by intros ? [= <-]|]. do 3 (split; [reflexivity|]). other_records. }
  destruct (waitForOffRampCompletion (getOffRampStatus c)) as [k3|msg k3] eqn:E6;
    cbv beta iota zeta.
  2: { apply waitForOffRampCompletion_rejects in E6 as ->.
       repeat pipeline_write. eexists. split; [eassumption|].
       split; [reflexivity|]. split; [auto 8|].
       split; [by intros ? [= <-]|]. do 3 (split; [reflexivity|]). other_records. }
  repeat pipeline_write.
  exists onRampId, hash, offRampId. eexists.
  do 3 (split; [reflexivity|]). split; [eassumption|].
  do 7 (split; [reflexivity|]). other_records.
Qed.

Lemma processPayment_settles_witness :
  ∃ s' t',
    processPayment_rest failingOnRamp sample_clock initiated_storage first_id
    = Throw "On-ramp timeout" s'
    ∧ getStoredTransaction s' first_id = Some t'
    ∧ status t' = FAILED
    ∧ fernOnRampId t' = Some "fern_on1"%string.
Proof.
  assert (Hfind : ∃ t, getStoredTransaction initiated_storage first_id = Some t)
    by (eexists; vm_compute; reflexivity).
  destruct Hfind as [t Hfind].
  pose proof (processPayment_settles failingOnRamp sample_clock initiated_storage
                first_id t Hfind) as H.
  destruct (processPayment_rest failingOnRamp sample_clock initiated_storage first_id)
    as [u s'|msg s'] eqn:E.
  - exfalso. vm_compute in E. discriminate E.
  - destruct H as (t' & Hat & Hst & _ & Hid & _).
    exists s', t'. split; [|split; [exact Hat|split; [exact Hst|by apply Hid]]].
    vm_compute in E. injection E as <- <-. vm_compute. reflexivity.
Defined.

(** X22. A pipeline whose record is not stored (the history was cleared,
    say) writes nothing, whatever its collaborators do: the storage entry
    is left as it was, also by the outer [catch]. *)
Theorem pipeline_without_record (c : Collaborators) (clock : nat → Z) (s : Storage)
    (i : string) :
  getStoredTransaction s i = None →
  backgroundTask c clock s i = s
  ∧ storage_of (processPayment_rest c clock s i) = s.
Proof.
  intros Hnone. split; [|by apply processPayment_rest_absent].
  unfold backgroundTask, processPayment_start.
  rewrite !(updateTransactionStatus_absent s) by done.
  pose proof (processPayment_rest_absent c clock s i Hnone) as H.
  destruct (processPayment_rest c clock s i) as [u s'|msg s']; simpl in H; subst s'.
  - reflexivity.
  - by apply updateTransactionStatus_absent.
Qed.

Lemma pipeline_without_record_witness :
  backgroundTask failingOnRamp sample_clock (clearTransactionHistory initiated_storage)
    first_id = None.
Proof.
  apply (pipeline_without_record failingOnRamp sample_clock
           (clearTransactionHistory initiated_storage) first_id).
  reflexivity.
Defined.

(** X23. Cancelling does not stop the pipeline: after a cancel that
    returned [true] the record reads FAILED, and a pipeline that would have
    completed without the cancel completes all the same, leaving the
    cancelled payment COMPLETED. *)
Theorem cancelPayment_does_not_stop_pipeline (c : Collaborators) (clock : nat → Z)
    (s : Storage) (now : Z) (i : string) (cancelled completed : Storage) :
  cancelPayment s now i = Ok true cancelled →
  processPayment_rest c clock s i = Ok tt completed →
  getTransactionStatus cancelled i = Ok FAILED cancelled
  ∧ ∃ s',
      processPayment_rest c clock cancelled i = Ok tt s'
      ∧ getTransactionStatus s' i = Ok COMPLETED s'.
Proof.
  unfold cancelPayment.
  destruct (getStoredTransaction s i) as [t|] eqn:Hfind; [|discriminate].
  destruct (includes _ _); [|discriminate].
  intros [= <-] Hrun.
  destruct (updateTransactionStatus_found s now i FAILED t Hfind) as [Hat _].
  split; [unfold getTransactionStatus; by rewrite Hat|].
  destruct (processPayment_rest_flow c clock clock s
              (updateTransactionStatus s now i FAILED) i i completed Hrun)
    as [s' Hs'].
  exists s'. split; [exact Hs'|].
  destruct (processPayment_rest_completes c clock _ i _ s' Hat Hs')
    as (t' & Hat' & Hst).
  unfold getTransactionStatus. by rewrite Hat', Hst.
Qed.

Lemma cancelPayment_does_not_stop_pipeline_witness :
  ∃ s',
    processPayment_rest cooperative sample_clock cancelled_storage first_id = Ok tt s'
    ∧ getTransactionStatus s' first_id = Ok COMPLETED s'.
Proof.
  edestruct (cancelPayment_does_not_stop_pipeline cooperative sample_clock
               initiated_storage 1700000001000 first_id cancelled_storage)
    as [_ H].
  - vm_compute. reflexivity.
  - vm_compute. reflexivity.
  - exact H.
Defined.

(** ** Progress *)

(** X24. For a stored payment that has not failed, the completed steps
    followed by the current step are an initial part of the pipeline and
    a walk the transition table of the manager allows from INITIATED; the
    current step is not among the completed ones. A failed payment shows
    no completed step and no remaining time, and an unknown id throws. *)
Theorem getPaymentProgress_spec (s : Storage) (i : string) :
  match getStoredTransaction s i with
  | None => getPaymentProgress s i = Throw ("Transaction not found: " ++ i) s
  | Some stored =>
      ∃ progress,
        getPaymentProgress s i = Ok progress s
        ∧ currentStep progress = status stored
        ∧ message progress = getStatusMessage (status stored)
        ∧ if decide (status stored = FAILED)
          then completedSteps progress = []
               ∧ estimatedTimeRemaining progress = 0%Z
          else (completedSteps progress ++ [currentStep progress])
                 `prefix_of` allSteps
               ∧ TransactionManager.validPath INITIATED
                   (tail (completedSteps progress ++ [currentStep progress])) = true
               ∧ currentStep progress ∉ completedSteps progress
  end.
Proof.
  unfold getPaymentProgress.
  destruct (getStoredTransaction s i) as [stored|]; [|reflexivity].
  eexists. split; [reflexivity|]. simpl.
  split; [reflexivity|]. split; [reflexivity|].
  destruct (status stored); simpl;
    try (split; [|split; [reflexivity|]]);
    try (split; reflexivity).
  - by exists [PENDING; ON_RAMPING; CONVERTING; TRANSFERRING; OFF_RAMPING; COMPLETED].
  - apply not_elem_of_nil.
  - by exists [ON_RAMPING; CONVERTING; TRANSFERRING; OFF_RAMPING; COMPLETED].
  - intros H. by repeat (apply elem_of_cons in H as [H|H]; [discriminate H|]);
      apply elem_of_nil in H.
  - by exists [CONVERTING; TRANSFERRING; OFF_RAMPING; COMPLETED].
  - intros H. by repeat (apply elem_of_cons in H as [H|H]; [discriminate H|]);
      apply elem_of_nil in H.
  - by exists [TRANSFERRING; OFF_RAMPING; COMPLETED].
  - intros H. by repeat (apply elem_of_cons in H as [H|H]; [discriminate H|]);
      apply elem_of_nil in H.
  - by exists [OFF_RAMPING; COMPLETED].
  - intros H. by repeat (apply elem_of_cons in H as [H|H]; [discriminate H|]);
      apply elem_of_nil in H.
  - by exists [COMPLETED].
  - intros H. by repeat (apply elem_of_cons in H as [H|H]; [discriminate H|]);
      apply elem_of_nil in H.
  - by exists [].
  - intros H. by repeat (apply elem_of_cons in H as [H|H]; [discriminate H|]);
      apply elem_of_nil in H.
Qed.

(** X25. Along every transition the table of the manager allows between
    two statuses other than FAILED, the estimate of the remaining time
    strictly decreases and stays non-negative. *)
Theorem calculateRemainingTime_decreases (a b : TransactionStatus) :
  TransactionManager.isValidTransition a b = true →
  a ≠ FAILED → b ≠ FAILED →
  (0 ≤ calculateRemainingTime b < calculateRemainingTime a)%Z.
Proof.
  intros Hv Ha Hb. destruct a, b; try discriminate Hv; try done; simpl; lia.
Qed.

Lemma calculateRemainingTime_decreases_witness :
  (0 ≤ calculateRemainingTime ON_RAMPING < calculateRemainingTime PENDING)%Z.
Proof.
  apply (calculateRemainingTime_decreases PENDING ON_RAMPING);
    [reflexivity | discriminate | discriminate].
Defined.

(** ** Identifiers *)

(** X26. Two ids are equal exactly when they were generated from the same
    clock reading and the same random characters, and every id starts
    with [tx_]. *)
Theorem generateTransactionId_spec (e1 e2 : Env) :
  (generateTransactionId e1 = generateTransactionId e2
   ↔ dateNow e1 = dateNow e2 ∧ mathRandom e1 = mathRandom e2)
  ∧ ∃ rest, generateTransactionId e1 = ("tx_" ++ rest)%string.
Proof.
  split; [split|].
  - apply generateTransactionId_inj.
  - intros [Hd Hr]. unfold generateTransactionId. by rewrite Hd, Hr.
  - eexists. reflexivity.
Qed.

(** ** The address check of the blockchain client *)

(** X27. An address passes exactly when it is [0x] (lower-case x) followed by
    forty hexadecimal digits of either case; so it has forty-two
    characters, and an address with nothing after the prefix fails. *)
Theorem validateAddress_spec (address : string) :
  (MockBlockchainService.validateAddress address = true
   ↔ ∃ digits,
       address = ("0x" ++ digits)%string
       ∧ String.length digits = 40%nat
       ∧ ∀ c, In c (list_ascii_of_string digits) →
              MockBlockchainService.isHexDigit c = true)
  ∧ (MockBlockchainService.validateAddress address = true →
     String.length address = 42%nat)
  ∧ MockBlockchainService.validateAddress "0x" = false.
Proof.
  assert (Hiff : MockBlockchainService.validateAddress address = true
                 ↔ ∃ digits,
                     address = ("0x" ++ digits)%string
                     ∧ String.length digits = 40%nat
                     ∧ ∀ c, In c (list_ascii_of_string digits) →
                            MockBlockchainService.isHexDigit c = true).
  { split.
    - intros H. destruct address as [|a address]; [discriminate|].
      destruct a as [[] [] [] [] [] [] [] []]; try discriminate H.
      destruct address as [|b digits]; [discriminate|].
      destruct b as [[] [] [] [] [] [] [] []]; try discriminate H.
      cbn [MockBlockchainService.validateAddress] in H.
      apply andb_true_iff in H as [Hlen Hhex].
      exists digits. split; [reflexivity|]. split.
      + by apply Nat.eqb_eq.
      + by apply forallb_forall.
    - intros (digits & -> & Hlen & Hhex).
      cbn [MockBlockchainService.validateAddress String.append].
      apply andb_true_iff. split.
      + by apply Nat.eqb_eq.
      + by apply forallb_forall. }
  split; [exact Hiff|]. split; [|reflexivity].
  intros H. apply Hiff in H as (digits & -> & Hlen & _).
  change (String.length (String "0" (String "x" digits)) = 42%nat).
  simpl. by rewrite Hlen.
Qed.

End PaymentServiceExtras.
